(** * GitHub stats card: streak calculation, language ranking, aggregation

    A shallow embedding of the core of the stats fetcher
    ([calculateStreak], [fetchLanguageData], the contribution totals of
    [fetchContributionData] and the summary literal built by
    [fetchGitHubStats]) together with the properties stated for it. *)

From Stdlib Require Import ZArith Lia Ascii String.
From Stdlib Require PrimFloat FloatOps SpecFloat Uint63.
From stdpp Require Import base list sorting strings gmap pretty.

Local Open Scope Z_scope.

(** ** Time

    Instants are JavaScript time values: integer milliseconds since the
    epoch.  The host supplies the reading of the clock ([new Date()]) and the
    offset of local time from UTC, which [setHours] works in; the offset is
    taken to be the same at all the instants involved. *)

Definition MS_PER_DAY : Z := 1000 * 60 * 60 * 24.

Record Clock := {
  now : Z;        (* the time value of [new Date()] *)
  utcOffset : Z   (* local time minus UTC, in milliseconds *)
}.

(** [d.setHours(0, 0, 0, 0)]: the instant of local midnight of the local day
    that contains [t]. *)
Definition setHours0 (c : Clock) (t : Z) : Z :=
  (t + utcOffset c) / MS_PER_DAY * MS_PER_DAY - utcOffset c.

(** The local calendar day, counted from the epoch, in which the instant [t]
    falls. *)
Definition localDay (c : Clock) (t : Z) : Z := (t + utcOffset c) / MS_PER_DAY.

(** [new Date("YYYY-MM-DD")]: a date without a time is read as midnight UTC
    of that calendar day. *)
Definition dateOnly (day : Z) : Z := day * MS_PER_DAY.

(** ** Contribution days *)

(** One entry of the contribution calendar.  [date] is the time value that
    [new Date(day.date)] denotes. *)
Record ContributionDay := {
  date : Z;
  contributionCount : Z
}.

(** The entry of calendar day [day] as the contribution calendar supplies
    it, its date a date without a time. *)
Definition calendarEntry (day count : Z) : ContributionDay :=
  {| date := dateOnly day; contributionCount := count |}.

Record StreakSummary := {
  current : Z;
  max : Z
}.

(** ** [Array.prototype.sort]

    The comparator returns a number; [a] is placed before [b] when the
    number is negative and the sort is stable.  Insertion from the right
    realises this: an element is put in front of the first later element it
    does not have to follow. *)
Section StableSort.
Context {A : Type} (cmp : A → A → Z).

Fixpoint sortInsert (x : A) (l : list A) : list A :=
  match l with
  | [] => [x]
  | y :: l' => if cmp x y <=? 0 then x :: l else y :: sortInsert x l'
  end.

Fixpoint stableSort (l : list A) : list A :=
  match l with
  | [] => []
  | x :: l' => sortInsert x (stableSort l')
  end.
End StableSort.

(** ** [calculateStreak] *)

(** The comparator [(a, b) => new Date(a.date) - new Date(b.date)]. *)
Definition byDate (a b : ContributionDay) : Z := date a - date b.

(** [const today = new Date(); today.setHours(0, 0, 0, 0)]. *)
Definition today (c : Clock) : Z := setHours0 c (now c).

(** [Math.floor((today - dayDate) / (1000 * 60 * 60 * 24))] with [dayDate]
    the day's date moved to local midnight. *)
Definition daysDiff (c : Clock) (day : ContributionDay) : Z :=
  (today c - setHours0 c (date day)) / MS_PER_DAY.

(** The first loop, [for (let i = sortedDays.length - 1; i >= 0; i--)].
    The counter [k] is [i + 1]; leaving the match without a recursive call
    is [break].  The loop starts at the length of the array, so the index is
    always in range. *)
Fixpoint currentLoop (c : Clock) (sortedDays : list ContributionDay)
    (k : nat) (currentStreak : Z) : Z :=
  match k with
  | O => currentStreak
  | S i =>
      match sortedDays !! i with
      | None => currentStreak
      | Some day =>
          if 0 <? contributionCount day then
            if daysDiff c day <=? currentStreak + 1
            then currentLoop c sortedDays i (currentStreak + 1)
            else currentStreak
          else if daysDiff c day <=? 1
          then currentLoop c sortedDays i currentStreak
          else currentStreak
      end
  end.

(** The second loop, [for (let i = 0; i < sortedDays.length; i++)], over the
    remaining suffix of the array with the two counters as state. *)
Fixpoint maxLoop (sortedDays : list ContributionDay)
    (tempStreak maxStreak : Z) : Z :=
  match sortedDays with
  | [] => maxStreak
  | day :: rest =>
      if 0 <? contributionCount day
      then maxLoop rest (tempStreak + 1) (Z.max maxStreak (tempStreak + 1))
      else maxLoop rest 0 maxStreak
  end.

Definition sortedDays (contributionDays : list ContributionDay)
    : list ContributionDay :=
  stableSort byDate contributionDays.

Definition calculateStreak (c : Clock) (contributionDays : list ContributionDay)
    : StreakSummary :=
  if bool_decide (length contributionDays = 0%nat)
  then {| current := 0; max := 0 |}
  else
    let sorted := sortedDays contributionDays in
    {| current := currentLoop c sorted (length sorted) 0;
       max := maxLoop sorted 0 0 |}.

(** ** [calculateStreak] on the heap

    Arrays and day objects live in a store and are passed by reference.
    [[...contributionDays]] allocates a new array holding the same element
    references and [sort] reorders the array it is called on, in place. *)

Abbreviation loc := positive.

Record heap := {
  arrays : gmap loc (list loc);
  dayObjects : gmap loc ContributionDay
}.

(** Reading every element of an array of day references. *)
Definition derefDays (h : heap) (refs : list loc) : option (list ContributionDay) :=
  mapM (λ r, dayObjects h !! r) refs.

(** [[...src]]: a fresh array with the elements of [src]. *)
Definition spreadCopy (h : heap) (src : loc) : option (loc * heap) :=
  refs ← arrays h !! src;
  let l := fresh (dom (arrays h)) in
  Some (l, {| arrays := <[l := refs]> (arrays h); dayObjects := dayObjects h |}).

(** [arr.sort((a, b) => new Date(a.date) - new Date(b.date))]: the array at
    [l] is overwritten with its elements in sorted order; the comparator
    reads the [date] of the day object behind each element. *)
Definition sortInPlace (h : heap) (l : loc) : option heap :=
  refs ← arrays h !! l;
  ds ← derefDays h refs;
  let sorted := stableSort (λ a b, byDate a.2 b.2) (zip refs ds) in
  Some {| arrays := <[l := sorted.*1]> (arrays h); dayObjects := dayObjects h |}.

Definition calculateStreakH (c : Clock) (h : heap) (contributionDays : loc)
    : option (heap * StreakSummary) :=
  refs ← arrays h !! contributionDays;
  if bool_decide (length refs = 0%nat)
  then Some (h, {| current := 0; max := 0 |})
  else
    '(l, h1) ← spreadCopy h contributionDays;
    h2 ← sortInPlace h1 l;
    sortedRefs ← arrays h2 !! l;
    sorted ← derefDays h2 sortedRefs;
    Some (h2, {| current := currentLoop c sorted (length sorted) 0;
                 max := maxLoop sorted 0 0 |}).

(** What the function would do to its argument without the copy. *)
Definition sortArgumentH (h : heap) (contributionDays : loc) : option heap :=
  sortInPlace h contributionDays.

(** ** Errors *)

Inductive Error :=
| TypeError (reading : string)      (* property read on [undefined] or [null] *)
| GraphQLError (message : string)
| UserNotFound.

Inductive result (A : Type) :=
| Ok (a : A)
| Throw (e : Error).
Arguments Ok {A} a.
Arguments Throw {A} e.

Definition bind {A B} (m : result A) (k : A → result B) : result B :=
  match m with
  | Ok a => k a
  | Throw e => Throw e
  end.

Notation "'let!' x ':=' m 'in' k" := (bind m (λ x, k))
  (at level 10, x name, m at level 100, k at level 200).

(** ** [fetchContributionData], after the response has arrived *)

Record ContributionsCollection := {
  totalCommitContributions : Z;
  totalIssueContributions : Z;
  totalPullRequestContributions : Z;
  totalPullRequestReviewContributions : Z;
  weeks : list (list ContributionDay)   (* contributionCalendar.weeks[_].contributionDays *)
}.

(** The parsed body: [errors] is absent or a list of messages; [data] and
    [data.user] are absent, or lead to the contributions collection. *)
Record GraphQLResponse := {
  errors : option (list string);
  data : option (option ContributionsCollection)
}.

Record ContributionStats := {
  totalCommits : Z;
  totalIssues : Z;
  totalPRs : Z;
  streak : StreakSummary;
  contributionDays : list ContributionDay
}.

Definition fetchContributionData (c : Clock) (response : GraphQLResponse)
    : result ContributionStats :=
  match errors response with
  | Some [] => Throw (TypeError "message")
  | Some (message :: _) => Throw (GraphQLError message)
  | None =>
      match data response with
      | None | Some None => Throw UserNotFound
      | Some (Some contributions) =>
          let allDays := concat (weeks contributions) in
          Ok {| totalCommits := totalCommitContributions contributions;
                totalIssues := totalIssueContributions contributions;
                totalPRs := totalPullRequestContributions contributions
                            + totalPullRequestReviewContributions contributions;
                streak := calculateStreak c allDays;
                contributionDays := allDays |}
      end
  end.

(** ** [fetchLanguageData], after the response has arrived *)

Record Repo := {
  stargazers_count : Z;
  forks_count : Z;
  language : option string   (* [None] is [null] *)
}.

(** [languageCounts] is an object used as a map from language name to
    count.  Its entries are kept in the order in which the names were first
    assigned, which is the order [Object.entries] lists them in (language
    names are never array indices). *)

(** [languageCounts[name] = (languageCounts[name] || 0) + 1]. *)
Fixpoint increment (name : string) (languageCounts : list (string * Z))
    : list (string * Z) :=
  match languageCounts with
  | [] => [(name, 0 + 1)]
  | (n, k) :: rest =>
      if decide (n = name) then (n, k + 1) :: rest
      else (n, k) :: increment name rest
  end.

(** [if (repo.language)]: [null] and the empty string are falsy. *)
Definition primaryLanguage (repo : Repo) : option string :=
  match language repo with
  | Some name => if decide (name = "") then None else Some name
  | None => None
  end.

Definition countLanguages (repos : list Repo) : list (string * Z) :=
  fold_left
    (λ languageCounts repo,
       match primaryLanguage repo with
       | Some name => increment name languageCounts
       | None => languageCounts
       end)
    repos [].

(** The comparator [(a, b) => b[1] - a[1]]. *)
Definition byCountDesc (a b : string * Z) : Z := b.2 - a.2.

(** JavaScript numbers are IEEE 754 binary64 values with rounding to
    nearest, ties to even: the primitive floats.  A count, a non-negative
    integer below [2 ^ 53], becomes the double of that value. *)
Definition toNumber (z : Z) : PrimFloat.float :=
  PrimFloat.of_uint63 (Uint63.of_Z z).

(** [(count / total) * 100]: a division and a multiplication of doubles,
    each rounded. *)
Definition percentOf (count total : Z) : PrimFloat.float :=
  PrimFloat.mul (PrimFloat.div (toNumber count) (toNumber total)) (toNumber 100).

(** [x.toFixed(1)] as a number of tenths: the integer [n] for which
    [n / 10 - x] is closest to zero, the larger one when two are equally
    close, taken on the exact value [m * 2 ^ e] of the double (and on its
    magnitude, with the sign put back, when [x] is negative).  The quotient
    of two positive counts is a finite double; no numeral of tenths stands
    for [NaN] or an infinity. *)
Definition toFixedTenths (x : PrimFloat.float) : Z :=
  match FloatOps.Prim2SF x with
  | SpecFloat.S754_finite s m e =>
      let n := if 0 <=? e then 10 * Z.pos m * 2 ^ e
               else (20 * Z.pos m + 2 ^ (- e)) / 2 ^ (- e + 1) in
      if s then - n else n
  | _ => 0
  end.

(** [((count / total) * 100).toFixed(1)], in tenths. *)
Definition toFixed1 (count total : Z) : Z := toFixedTenths (percentOf count total).

(** The decimal numeral with one fractional digit. *)
Definition showTenths (t : Z) : string :=
  pretty (t / 10) +:+ "." +:+ pretty (t mod 10).

Record LanguageShare := {
  name : string;
  percentage : string
}.

Definition topLanguages (languageCounts : list (string * Z)) : list (string * Z) :=
  take 5 (stableSort byCountDesc languageCounts).

Definition rankLanguages (languageCounts : list (string * Z)) : list LanguageShare :=
  let sortedLanguages := topLanguages languageCounts in
  if bool_decide (length sortedLanguages = 0%nat) then []
  else
    let total := fold_left (λ sum lang, sum + lang.2) sortedLanguages 0 in
    (λ lang,
       {| name := lang.1;
          percentage := if 0 <? total then showTenths (toFixed1 lang.2 total)
                        else "0.0" |}) <$> sortedLanguages.

Definition fetchLanguageData (repos : list Repo) : list LanguageShare :=
  rankLanguages (countLanguages repos).

(** Reading a reported percentage back as a number of tenths. *)
Definition digitValue (a : ascii) : option Z :=
  let n := Z.of_N (N_of_ascii a) in
  if bool_decide (48 ≤ n ≤ 57) then Some (n - 48) else None.

Fixpoint readTenthsAux (s : string) (acc : Z) : Z :=
  match s with
  | EmptyString => acc
  | String a s' =>
      match digitValue a with
      | Some d => readTenthsAux s' (10 * acc + d)
      | None => readTenthsAux s' acc
      end
  end.

Definition readTenths (s : string) : Z := readTenthsAux s 0.

(** ** The summary built by [fetchGitHubStats]

    The four awaited sub-results are whatever the fetch functions resolved
    to, so they are modelled as untyped JavaScript values. *)

Module Summary.

Set Warnings "-register-all".
Inductive value :=
| VUndefined
| VNull
| VBool (b : bool)
| VNum (n : Z)
| VStr (s : string)
| VArr (items : list value)
| VObj (props : list (string * value)).
Set Warnings "register-all".

Fixpoint lookupProp (p : string) (props : list (string * value)) : value :=
  match props with
  | [] => VUndefined
  | (q, v) :: rest => if decide (q = p) then v else lookupProp p rest
  end.

(** [v.p] for the property names read by the summary; none of them is
    defined on the prototypes of primitives or arrays.  Reading a property of
    [undefined] or [null] throws. *)
Definition getProp (v : value) (p : string) : result value :=
  match v with
  | VUndefined | VNull => Throw (TypeError p)
  | VObj props => Ok (lookupProp p props)
  | VBool _ | VNum _ | VStr _ | VArr _ => Ok VUndefined
  end.

Definition truthy (v : value) : bool :=
  match v with
  | VUndefined | VNull => false
  | VBool b => b
  | VNum n => negb (n =? 0)
  | VStr s => negb (bool_decide (s = ""))
  | VArr _ | VObj _ => true
  end.

Definition isNullish (v : value) : bool :=
  match v with
  | VUndefined | VNull => true
  | _ => false
  end.

(** [a || b]. *)
Definition orElse (a b : value) : value := if truthy a then a else b.

Record StatsSummary := {
  username : value;
  followers : value;
  following : value;
  publicRepos : value;
  totalStars : value;
  totalForks : value;
  totalIssues : value;
  totalPRs : value;
  totalCommits : value;
  contributionStreak : value;
  contributionDays : value;
  languages : value;
  fetchedAt : Z                   (* the instant [toISOString] prints *)
}.


Definition emptyStreak : value :=
  VObj [("current", VNum 0); ("max", VNum 0)].

(** The object literal of the [return], its property values evaluated in
    source order. *)
Definition buildSummary (c : Clock) (userName : value)
    (userStats repoStats contributionStats languageStats : value)
    : result StatsSummary :=
  let! vFollowers := getProp userStats "followers" in
  let! vFollowing := getProp userStats "following" in
  let! vPublicRepos := getProp userStats "public_repos" in
  let! vTotalStars := getProp repoStats "totalStars" in
  let! vTotalForks := getProp repoStats "totalForks" in
  let! vTotalIssues := getProp contributionStats "totalIssues" in
  let! vTotalPRs := getProp contributionStats "totalPRs" in
  let! vTotalCommits := getProp contributionStats "totalCommits" in
  let! vStreak := getProp contributionStats "streak" in
  let! vDays := getProp contributionStats "contributionDays" in
  Ok {| username := userName;
        followers := orElse vFollowers (VNum 0);
        following := orElse vFollowing (VNum 0);
        publicRepos := orElse vPublicRepos (VNum 0);
        totalStars := orElse vTotalStars (VNum 0);
        totalForks := orElse vTotalForks (VNum 0);
        totalIssues := orElse vTotalIssues (VNum 0);
        totalPRs := orElse vTotalPRs (VNum 0);
        totalCommits := orElse vTotalCommits (VNum 0);
        contributionStreak := orElse vStreak emptyStreak;
        contributionDays := orElse vDays (VArr []);
        languages := orElse languageStats (VArr []);
        fetchedAt := now c |}.

(** The summary with its time stamp blanked out. *)
Definition withoutFetchedAt (s : StatsSummary) : StatsSummary :=
  {| username := username s; followers := followers s;
     following := following s; publicRepos := publicRepos s;
     totalStars := totalStars s; totalForks := totalForks s;
     totalIssues := totalIssues s; totalPRs := totalPRs s;
     totalCommits := totalCommits s;
     contributionStreak := contributionStreak s;
     contributionDays := contributionDays s; languages := languages s;
     fetchedAt := 0 |}.

End Summary.

(** ** Specification vocabulary *)

(** The current-streak rule read as a relation: scanning [days], most
    recent entry first, from a streak of [cur] ends with a streak of [r]. *)
Inductive ScanBack (c : Clock) : list ContributionDay → Z → Z → Prop :=
| scan_end cur :
    ScanBack c [] cur cur
| scan_extend day rest cur r :
    0 < contributionCount day → daysDiff c day ≤ cur + 1 →
    ScanBack c rest (cur + 1) r →
    ScanBack c (day :: rest) cur r
| scan_stop_positive day rest cur :
    0 < contributionCount day → ¬ daysDiff c day ≤ cur + 1 →
    ScanBack c (day :: rest) cur cur
| scan_grace day rest cur r :
    ¬ 0 < contributionCount day → daysDiff c day ≤ 1 →
    ScanBack c rest cur r →
    ScanBack c (day :: rest) cur r
| scan_stop_zero day rest cur :
    ¬ 0 < contributionCount day → ¬ daysDiff c day ≤ 1 →
    ScanBack c (day :: rest) cur cur.

(** The same scan as a function of the list of entries still to visit,
    most recent first. *)
Fixpoint scanBack (c : Clock) (newestFirst : list ContributionDay) (cur : Z) : Z :=
  match newestFirst with
  | [] => cur
  | day :: rest =>
      if 0 <? contributionCount day then
        if daysDiff c day <=? cur + 1 then scanBack c rest (cur + 1) else cur
      else if daysDiff c day <=? 1 then scanBack c rest cur
      else cur
  end.

(** How many zero-count entries that scan passes over. *)
Fixpoint graceSkipped (c : Clock) (newestFirst : list ContributionDay) (cur : Z) : Z :=
  match newestFirst with
  | [] => 0
  | day :: rest =>
      if 0 <? contributionCount day then
        if daysDiff c day <=? cur + 1 then graceSkipped c rest (cur + 1) else 0
      else if daysDiff c day <=? 1 then 1 + graceSkipped c rest cur
      else 0
  end.

Definition active (day : ContributionDay) : Prop := 0 < contributionCount day.

(** [run] occupies consecutive positions of [l] and all its entries have a
    positive count. *)
Definition activeRun (l run : list ContributionDay) : Prop :=
  (∃ pre post, l = pre ++ run ++ post) ∧ Forall active run.

(** The values the running counter takes, entry by entry: one more after
    an entry with a positive count, zero after any other. *)
Fixpoint runningCounter (l : list ContributionDay) (temp : Z) : list Z :=
  match l with
  | [] => []
  | day :: rest =>
      let temp' := if 0 <? contributionCount day then temp + 1 else 0 in
      temp' :: runningCounter rest temp'
  end.

(** The number of entries with a positive count. *)
Definition activeDays (l : list ContributionDay) : Z :=
  Z.of_nat (length (filter active l)).

(** A zero-count entry inside the grace window that sits between two
    entries with a positive count. *)
Definition bridgedGap (c : Clock) (l : list ContributionDay) : Prop :=
  ∃ l1 p l2 z l3 q l4,
    l = l1 ++ p :: l2 ++ z :: l3 ++ q :: l4 ∧
    active p ∧ ¬ active z ∧ daysDiff c z ≤ 1 ∧ active q.

(** Language names in the order of their first appearance. *)
Fixpoint encounterOrder (names : list string) : list string :=
  match names with
  | [] => []
  | n :: rest => n :: filter (λ m, m ≠ n) (encounterOrder rest)
  end.

(** The number of repositories whose primary language is [n]. *)
Definition reposIn (n : string) (repos : list Repo) : Z :=
  Z.of_nat (length (filter (λ r, language r = Some n) repos)).

Fixpoint countFor (n : string) (languageCounts : list (string * Z)) : Z :=
  match languageCounts with
  | [] => 0
  | (m, k) :: rest => if decide (m = n) then k else countFor n rest
  end.

Definition sumZ (l : list Z) : Z := foldr Z.add 0 l.

(** [p] holds of each of the integers from 1 to [n]. *)
Fixpoint allUpTo (p : Z → bool) (n : nat) : bool :=
  match n with
  | O => true
  | S k => p (Z.of_nat (S k)) && allUpTo p k
  end.

(** The reported number of tenths is within half a tenth of the exact share
    [1000 * count / total]. *)
Definition nearestTenth (count total : Z) : bool :=
  Z.abs (2 * total * toFixed1 count total - 2000 * count) <=? total.

(** Ascending order of a numeric key. *)
Definition keyLe {A : Type} (key : A → Z) (a b : A) : Prop := key a ≤ key b.

(** A zero-count entry inside the grace window with an entry of positive
    count somewhere after it. *)
Definition gapBeforeActive (c : Clock) (l : list ContributionDay) : Prop :=
  ∃ l2 z l3 q l4,
    l = l2 ++ z :: l3 ++ q :: l4 ∧ ¬ active z ∧ daysDiff c z ≤ 1 ∧ active q.

(** A calendar that ends on day [last]: ten days with a contribution each,
    three days without any, then the day before [last] and [last] itself
    with contributions. *)
Definition historyEndingOn (last : Z) : list ContributionDay :=
  ((λ k, calendarEntry (last - k) 1) <$> [14; 13; 12; 11; 10; 9; 8; 7; 6; 5])
  ++ ((λ k, calendarEntry (last - k) 0) <$> [4; 3; 2])
  ++ [calendarEntry (last - 1) 2; calendarEntry last 5].

(** ** Concrete inputs *)

(** Shortly after noon UTC on 15 June 2024, day 19889 of the epoch, on a
    host whose local time is UTC. *)
Definition exampleClock : Clock := {| now := 1718454600000; utcOffset := 0 |}.

(** The calendar entry dated [n] days before that day; a date without a
    time denotes midnight UTC. *)
Definition daysAgo (n count : Z) : ContributionDay :=
  {| date := (19889 - n) * MS_PER_DAY; contributionCount := count |}.

(** The same instant on a host five hours west of UTC. *)
Definition westClock : Clock :=
  {| now := 1718454600000; utcOffset := -18000000 |}.

Definition graceDays : list ContributionDay := [daysAgo 0 0; daysAgo 1 3].

Definition bridgedDays : list ContributionDay :=
  [daysAgo 2 1; daysAgo 1 0; daysAgo 0 1].

Definition fiveDays : list ContributionDay :=
  [daysAgo 4 2; daysAgo 3 1; daysAgo 2 7; daysAgo 1 1; daysAgo 0 4].

Definition historicalDays : list ContributionDay :=
  ((λ n, daysAgo n 1) <$> [14; 13; 12; 11; 10; 9; 8; 7; 6; 5])
  ++ [daysAgo 4 0; daysAgo 3 0; daysAgo 2 0]
  ++ [daysAgo 1 2; daysAgo 0 5].

Definition idleDays : list ContributionDay :=
  [daysAgo 2 0; daysAgo 1 0; daysAgo 0 0].

(** A store holding the two entries of [graceDays] and an array of them. *)
Definition exampleHeap : heap :=
  {| arrays := {[ 1%positive := [10%positive; 11%positive] ]};
     dayObjects := {[ 10%positive := daysAgo 0 0; 11%positive := daysAgo 1 3 ]} |}.

(** A response for a user with 7 authored pull requests and 5 reviews. *)
Definition exampleContributions : ContributionsCollection :=
  {| totalCommitContributions := 120;
     totalIssueContributions := 4;
     totalPullRequestContributions := 7;
     totalPullRequestReviewContributions := 5;
     weeks := [[daysAgo 1 3]; [daysAgo 0 0]] |}.

Definition exampleResponse : GraphQLResponse :=
  {| errors := None; data := Some (Some exampleContributions) |}.

Definition exampleUser : Summary.value :=
  Summary.VObj [("followers", Summary.VNum 12); ("following", Summary.VNum 3);
                ("public_repos", Summary.VNum 14)].

Definition exampleRepoStats : Summary.value :=
  Summary.VObj [("totalStars", Summary.VNum 40); ("totalForks", Summary.VNum 2)].

(** Fourteen repositories, one of them without a language, whose languages
    appear as Go x5, Python x3, JS x3, Rust, C and Zig. *)
Definition repoIn (l : string) : Repo :=
  {| stargazers_count := 0; forks_count := 0; language := Some l |}.

Definition exampleRepos : list Repo :=
  {| stargazers_count := 3; forks_count := 1; language := None |}
  :: (repoIn <$> ["Go"; "Python"; "Go"; "JS"; "Go"; "Rust"; "Go"; "Python";
                  "JS"; "C"; "Zig"; "Go"; "Python"; "JS"]).

Definition exampleCounts : list (string * Z) :=
  [("Go", 5); ("Python", 3); ("JS", 3); ("Rust", 1); ("C", 1); ("Zig", 1)].

(** ** Further concrete inputs *)

(** Two entries for the same date followed by the next day. *)
Definition duplicateDays : list ContributionDay :=
  [daysAgo 1 1; daysAgo 1 0; daysAgo 0 1].

(** Ten minutes before the following midnight UTC. *)
Definition lateClock : Clock := {| now := 1718495400000; utcOffset := 0 |}.

Definition staleDays : list ContributionDay :=
  [daysAgo 5 2; daysAgo 4 6; daysAgo 3 1; daysAgo 2 9; daysAgo 1 0; daysAgo 0 0].

Definition smallRepos : list Repo := repoIn <$> ["Go"; "Python"; "Go"].

(** ** Sub-results as JavaScript values

    The objects the fetch functions return, as the untyped values the
    summary is built from.  [dateString] gives back the date string of a day
    from its time value; the summary does not look at it. *)

Record RepoStats := {
  totalStars : Z;
  totalForks : Z
}.

Definition encodeStreak (s : StreakSummary) : Summary.value :=
  Summary.VObj [("current", Summary.VNum (current s));
                ("max", Summary.VNum (max s))].

Definition encodeDay (dateString : Z → string) (d : ContributionDay)
    : Summary.value :=
  Summary.VObj [("contributionCount", Summary.VNum (contributionCount d));
                ("date", Summary.VStr (dateString (date d)))].

Definition encodeContributionStats (dateString : Z → string)
    (stats : ContributionStats) : Summary.value :=
  Summary.VObj
    [("totalCommits", Summary.VNum (totalCommits stats));
     ("totalIssues", Summary.VNum (totalIssues stats));
     ("totalPRs", Summary.VNum (totalPRs stats));
     ("streak", encodeStreak (streak stats));
     ("contributionDays",
      Summary.VArr (encodeDay dateString <$> contributionDays stats))].

Definition encodeRepoStats (stats : RepoStats) : Summary.value :=
  Summary.VObj [("totalStars", Summary.VNum (totalStars stats));
                ("totalForks", Summary.VNum (totalForks stats))].

Definition encodeLanguages (shares : list LanguageShare) : Summary.value :=
  Summary.VArr
    ((λ share, Summary.VObj [("name", Summary.VStr (name share));
                             ("percentage", Summary.VStr (percentage share))])
     <$> shares).

(** The fields of a summary that hold sub-result values. *)
Definition summaryFields (s : Summary.StatsSummary) : list Summary.value :=
  [Summary.followers s; Summary.following s; Summary.publicRepos s;
   Summary.totalStars s; Summary.totalForks s; Summary.totalIssues s;
   Summary.totalPRs s; Summary.totalCommits s; Summary.contributionStreak s;
   Summary.contributionDays s; Summary.languages s].

(** ** [fetchWithRetry]

    What the network answers to the [i]-th call of [fetch] is given from
    outside: the call rejects, or resolves to a response. *)

Record Response (B : Type) := {
  status : Z;
  ok : bool;
  statusText : string;
  rateLimitReset : option string;   (* headers.get("x-ratelimit-reset") *)
  json : B                          (* the parsed body *)
}.
Arguments status {B} _.
Arguments ok {B} _.
Arguments statusText {B} _.
Arguments rateLimitReset {B} _.
Arguments json {B} _.

Inductive Attempt (B : Type) :=
| Rejected (message : string)
| Responded (response : Response B).
Arguments Rejected {B} message.
Arguments Responded {B} response.

Inductive FetchError :=
| FetchRejected (message : string)
| RateLimitExceeded (reset : string)
| HttpError (code : Z) (text : string).

(** What the caller of [fetchWithRetry] gets. *)
Inductive Fetched (B : Type) :=
| Returned (response : Response B)
| ReturnedUndefined
| Threw (e : FetchError).
Arguments Returned {B} response.
Arguments ReturnedUndefined {B}.
Arguments Threw {B} e.

(** What it does on the way. *)
Inductive Effect :=
| Request
| Sleep (ms : Z).

(** A header value that passes [if (rateLimitReset)]. *)
Definition presentHeader (h : option string) : option string :=
  match h with
  | Some reset => if bool_decide (reset = "") then None else Some reset
  | None => None
  end.

(** The body of the [try]: one call of [fetch] and the two checks. *)
Definition tryOnce {B} (a : Attempt B) : FetchError + Response B :=
  match a with
  | Rejected message => inl (FetchRejected message)
  | Responded response =>
      match (if status response =? 403
             then presentHeader (rateLimitReset response) else None) with
      | Some reset => inl (RateLimitExceeded reset)
      | None =>
          if negb (ok response)
          then inl (HttpError (status response) (statusText response))
          else inr response
      end
  end.

(** [for (let i = 0; i < retries; i++)], with [fuel] bounding the number of
    rounds. *)
Fixpoint retryLoop {B} (net : nat → Attempt B) (retries fuel i : nat)
    : Fetched B * list Effect :=
  match fuel with
  | O => (ReturnedUndefined, [])
  | S fuel' =>
      if bool_decide (i < retries)%nat then
        match tryOnce (net i) with
        | inr response => (Returned response, [Request])
        | inl error =>
            if bool_decide (i = retries - 1)%nat then (Threw error, [Request])
            else
              let delay := 2 ^ Z.of_nat i * 1000 in
              let rest := retryLoop net retries fuel' (S i) in
              (rest.1, Request :: Sleep delay :: rest.2)
        end
      else (ReturnedUndefined, [])
  end.

Definition fetchWithRetry {B} (net : nat → Attempt B) (retries : nat)
    : Fetched B * list Effect :=
  retryLoop net retries retries 0.

(** The number of requests and the time slept in a run. *)
Fixpoint requests (effects : list Effect) : nat :=
  match effects with
  | [] => 0
  | Request :: rest => S (requests rest)
  | Sleep _ :: rest => requests rest
  end.

Fixpoint slept (effects : list Effect) : Z :=
  match effects with
  | [] => 0
  | Request :: rest => slept rest
  | Sleep ms :: rest => ms + slept rest
  end.

(** The effects of [k] failed attempts, from attempt [i] on, each followed
    by its back-off. *)
Fixpoint backoff (i k : nat) : list Effect :=
  match k with
  | O => []
  | S k' => Request :: Sleep (2 ^ Z.of_nat i * 1000) :: backoff (S i) k'
  end.

(** ** [fetchRepositoryStats]

    A page request goes through [fetchWithRetry] with its default of three
    attempts and yields the parsed body, or the error thrown, together with
    the effects of the attempts. *)

Definition PageFetch := Z → (FetchError + list Repo) * list Effect.

(** [fetchWithRetry(url(page), { headers })] followed by [response.json()];
    [net page i] is the network's answer to the [i]-th attempt at the page,
    its body already parsed.  With three retries a response or an error
    always comes back. *)
Definition fetchReposPage (net : Z → nat → Attempt (list Repo)) : PageFetch :=
  λ page,
    let run := fetchWithRetry (net page) 3 in
    (match run.1 with
     | Returned response => inr (json response)
     | Threw error => inl error
     | ReturnedUndefined => inl (FetchRejected "response is undefined")
     end,
     run.2).

(** [n || 0]. *)
Definition orZero (n : Z) : Z := if n =? 0 then 0 else n.

(** The [while (hasMore && page <= 10)] loop; running into an empty page
    clears [hasMore] and so ends it. *)
Fixpoint collectPages (fetchPage : PageFetch)
    (fuel : nat) (page : Z) (allRepos : list Repo)
    : (FetchError + list Repo) * list Effect :=
  match fuel with
  | O => (inr allRepos, [])
  | S fuel' =>
      if page <=? 10 then
        let fetched := fetchPage page in
        match fetched.1 with
        | inl error => (inl error, fetched.2)
        | inr repos =>
            if bool_decide (length repos = 0%nat) then (inr allRepos, fetched.2)
            else
              let rest := collectPages fetchPage fuel' (page + 1) (allRepos ++ repos) in
              (rest.1, fetched.2 ++ rest.2)
        end
      else (inr allRepos, [])
  end.

Definition sumStats (allRepos : list Repo) : RepoStats :=
  {| totalStars :=
       fold_left (λ sum repo, sum + orZero (stargazers_count repo)) allRepos 0;
     totalForks :=
       fold_left (λ sum repo, sum + orZero (forks_count repo)) allRepos 0 |}.

Definition fetchRepositoryStats (fetchPage : PageFetch)
    : (FetchError + RepoStats) * list Effect :=
  let run := collectPages fetchPage 10 1 [] in
  (match run.1 with
   | inl error => inl error
   | inr allRepos => inr (sumStats allRepos)
   end,
   run.2).

(** A page that is served at once. *)
Definition served (repos : list Repo) : (FetchError + list Repo) * list Effect :=
  (inr repos, [Request]).

(** The pages [first], ..., [first + n - 1] of a paged listing, joined. *)
Fixpoint joinPages (pages : Z → list Repo) (first : Z) (n : nat) : list Repo :=
  match n with
  | O => []
  | S n' => pages first ++ joinPages pages (first + 1) n'
  end.

(** A user with 250 repositories of three stars and one fork each. *)
Definition examplePages (p : Z) : list Repo :=
  if p <=? 2 then replicate 100 {| stargazers_count := 3; forks_count := 1; language := None |}
  else if p =? 3 then replicate 50 {| stargazers_count := 3; forks_count := 1; language := None |}
  else [].

(** A network that fails twice and then answers. *)
Definition flakyNet (i : nat) : Attempt Z :=
  match i with
  | 0%nat => Rejected "socket hang up"
  | 1%nat => Responded {| status := 502; ok := false; statusText := "Bad Gateway";
                          rateLimitReset := None; json := 0 |}
  | _ => Responded {| status := 200; ok := true; statusText := "OK";
                      rateLimitReset := None; json := 42 |}
  end.

(** A network that keeps answering with an exhausted rate limit. *)
Definition limitedNet (i : nat) : Attempt Z :=
  Responded {| status := 403; ok := false; statusText := "Forbidden";
               rateLimitReset := Some "1718460000"; json := 0 |}.

(** A listing served page by page, every request failing once before it
    is answered. *)
Definition retriedNet (p : Z) (i : nat) : Attempt (list Repo) :=
  match i with
  | 0%nat => Rejected "socket hang up"
  | _ => Responded {| status := 200; ok := true; statusText := "OK";
                      rateLimitReset := None; json := examplePages p |}
  end.

(** ** [validateEnvironment]

    Environment values are JavaScript strings, taken as their sequences of
    UTF-16 code units, which is what [trim], [length] and the regular
    expression work on. *)

Abbreviation CodeUnits := (list N).

(** WhiteSpace and LineTerminator code points, the ones [trim] strips. *)
Definition isWhiteSpace (u : N) : bool :=
  ((9 <=? u) && (u <=? 13) || (u =? 32) || (u =? 160) || (u =? 5760)
   || (8192 <=? u) && (u <=? 8202) || (u =? 8232) || (u =? 8233)
   || (u =? 8239) || (u =? 8287) || (u =? 12288) || (u =? 65279))%N.

Fixpoint trimStart (s : CodeUnits) : CodeUnits :=
  match s with
  | [] => []
  | u :: s' => if isWhiteSpace u then trimStart s' else s
  end.

Definition trimEnd (s : CodeUnits) : CodeUnits := reverse (trimStart (reverse s)).

Definition trim (s : CodeUnits) : CodeUnits := trimEnd (trimStart s).

(** The class [[a-zA-Z0-9-]]. *)
Definition isUsernameChar (u : N) : bool :=
  ((97 <=? u) && (u <=? 122) || (65 <=? u) && (u <=? 90)
   || (48 <=? u) && (u <=? 57) || (u =? 45))%N.

(** [/^[a-zA-Z0-9-]+$/.test(s)]. *)
Definition usernamePattern (s : CodeUnits) : bool :=
  negb (bool_decide (s = [])) && forallb isUsernameChar s.

Inductive EnvError :=
| MissingVariables (missing : list string)
| InvalidUsername (username : CodeUnits)
| TokenTooShort.

(** [!process.env[key]]: unset, or set to the empty string. *)
Definition unset (env : gmap string CodeUnits) (key : string) : Prop :=
  env !! key = None ∨ env !! key = Some [].

#[global] Instance unset_dec env key : Decision (unset env key).
Proof. unfold unset. apply _. Defined.

Definition required : list string := ["GITHUB_USERNAME"; "GITHUB_TOKEN"].

Definition validateEnvironment (env : gmap string CodeUnits)
    : EnvError + (CodeUnits * CodeUnits) :=
  let missing := filter (unset env) required in
  if bool_decide (0 < length missing)%nat then inl (MissingVariables missing)
  else
    (* both variables are set here *)
    let username := trim (default [] (env !! "GITHUB_USERNAME")) in
    let token := trim (default [] (env !! "GITHUB_TOKEN")) in
    if negb (usernamePattern username) then inl (InvalidUsername username)
    else if bool_decide (length token < 20)%nat then inl TokenTooShort
    else inr (username, token).

(** The code units of an ASCII string. *)
Fixpoint unitsOf (s : string) : CodeUnits :=
  match s with
  | EmptyString => []
  | String a s' => N_of_ascii a :: unitsOf s'
  end.

Definition exampleEnv : gmap string CodeUnits :=
  {[ "GITHUB_USERNAME" := unitsOf " octo-cat7 ";
     "GITHUB_TOKEN" := 9%N :: unitsOf "ghp_0123456789abcdefghij" ++ [10%N] ]}.

(** ** [formatNumber]

    The argument is a count: an integer in the range where doubles are
    exact. *)

(** [(num / unit).toFixed(1)] for [0 <= num], as a number of tenths: the
    tenth nearest to the exact quotient.  When the quotient lies exactly
    halfway between two tenths, the digit printed depends on which side of
    it the double nearest to the quotient falls; [tieUp num unit] tells
    whether that is the upper one. *)
Definition toFixed1Of (tieUp : Z → Z → bool) (num unit : Z) : Z :=
  let q := 10 * num / unit in
  let r := (10 * num) mod unit in
  if 2 * r <? unit then q
  else if unit <? 2 * r then q + 1
  else if tieUp num unit then q + 1 else q.

Definition formatNumber (tieUp : Z → Z → bool) (num : Z) : string :=
  if 1000000 <=? num then showTenths (toFixed1Of tieUp num 1000000) +:+ "M"
  else if 1000 <=? num then showTenths (toFixed1Of tieUp num 1000) +:+ "K"
  else pretty num.

(** * Properties *)

(** ** The stable sort *)

Section StableSortFacts.
Context {A : Type} (cmp : A → A → Z).

Lemma sortInsert_perm x l : sortInsert cmp x l ≡ₚ x :: l.
Proof.
  induction l as [|y l IH]; simpl; [done|].
  destruct (cmp x y <=? 0); [done|].
  rewrite IH. apply Permutation_swap.
Qed.

Lemma stableSort_perm l : stableSort cmp l ≡ₚ l.
Proof.
  induction l as [|x l IH]; simpl; [done|].
  by rewrite sortInsert_perm, IH.
Qed.

Lemma stableSort_length l : length (stableSort cmp l) = length l.
Proof. by rewrite stableSort_perm. Qed.

(** The sort only looks at what the comparator looks at. *)
Lemma stableSort_fmap {B} (f : B → A) l :
  f <$> stableSort (λ a b, cmp (f a) (f b)) l = stableSort cmp (f <$> l).
Proof.
  induction l as [|x l IH]; [done|].
  rewrite fmap_cons. cbn [stableSort]. rewrite <- IH.
  generalize (stableSort (λ a b, cmp (f a) (f b)) l).
  intros s. induction s as [|y s IHs]; [done|].
  cbn [sortInsert]. rewrite !fmap_cons. cbn [sortInsert].
  destruct (cmp (f x) (f y) <=? 0); [done|].
  by rewrite fmap_cons, IHs.
Qed.

(** Comparators that subtract a numeric key. *)
Context (key : A → Z) (Hcmp : ∀ a b, cmp a b = key a - key b).

Local Abbreviation ascending := (keyLe key).

Lemma sortInsert_sorted x l :
  StronglySorted ascending l → StronglySorted ascending (sortInsert cmp x l).
Proof.
  induction 1 as [|y l Hs IH Hy]; simpl.
  - repeat constructor.
  - destruct (Z.leb_spec (cmp x y) 0) as [Hle|Hgt]; rewrite Hcmp in *.
    + constructor; [by constructor|].
      constructor; [unfold keyLe; lia|].
      eapply Forall_impl; [exact Hy|]. unfold keyLe. intros; simpl in *; lia.
    + constructor; [done|].
      rewrite sortInsert_perm. constructor; [unfold keyLe; lia|done].
Qed.

Lemma stableSort_sorted l : StronglySorted ascending (stableSort cmp l).
Proof.
  induction l as [|x l IH]; simpl; [constructor|].
  by apply sortInsert_sorted.
Qed.

(** Entries with equal keys keep their relative order. *)
Lemma sortInsert_stable k x l :
  filter (λ a, key a = k) (sortInsert cmp x l)
  = filter (λ a, key a = k) (x :: l).
Proof.
  induction l as [|y l IH]; simpl; [done|].
  destruct (Z.leb_spec (cmp x y) 0) as [Hle|Hgt]; [done|].
  rewrite Hcmp in Hgt.
  rewrite (filter_cons _ y), IH, !filter_cons.
  repeat case_decide; try done; lia.
Qed.

Lemma stableSort_stable k l :
  filter (λ a, key a = k) (stableSort cmp l) = filter (λ a, key a = k) l.
Proof.
  induction l as [|x l IH]; simpl; [done|].
  rewrite sortInsert_stable, !filter_cons, IH. done.
Qed.

(** A sorted array is left as it is. *)
Lemma stableSort_sorted_id l : StronglySorted ascending l → stableSort cmp l = l.
Proof.
  induction 1 as [|x l Hs IH Hx]; simpl; [done|].
  rewrite IH. destruct l as [|y l]; simpl; [done|].
  apply Forall_cons in Hx as [Hxy _]. unfold keyLe in Hxy.
  rewrite Hcmp. destruct (Z.leb_spec (key x - key y) 0); [done|lia].
Qed.
(** The outcome is the only one a stable sort can have: any two
    arrangements in ascending key order that keep entries of equal key in
    the same relative order coincide. *)
Lemma sorted_stable_unique l1 l2 :
  StronglySorted ascending l1 → StronglySorted ascending l2 →
  (∀ k, filter (λ a, key a = k) l1 = filter (λ a, key a = k) l2) →
  l1 = l2.
Proof.
  intros H1. revert l2. induction H1 as [|x l1 Hs1 IH Hx]; intros l2 H2 Hf.
  - destruct l2 as [|y l2]; [done|].
    specialize (Hf (key y)). by rewrite filter_nil, filter_cons_True in Hf.
  - destruct H2 as [|y l2 Hs2 Hy].
    { specialize (Hf (key x)). by rewrite filter_nil, filter_cons_True in Hf. }
    assert (key x = key y) as Hxy.
    { assert (x ∈ y :: l2) as Hin.
      { apply (list_elem_of_filter (λ a, key a = key x)). rewrite <- Hf.
        rewrite filter_cons_True by done. apply elem_of_cons; by left. }
      assert (y ∈ x :: l1) as Hin'.
      { apply (list_elem_of_filter (λ a, key a = key y)). rewrite Hf.
        rewrite filter_cons_True by done. apply elem_of_cons; by left. }
      rewrite Forall_forall in Hx, Hy. unfold keyLe in *.
      apply elem_of_cons in Hin as [->|Hin]; [done|].
      apply elem_of_cons in Hin' as [->|Hin']; [done|].
      specialize (Hx _ Hin'). specialize (Hy _ Hin). lia. }
    pose proof (Hf (key x)) as Hhead.
    rewrite filter_cons_True in Hhead by done.
    rewrite (filter_cons_True _ y) in Hhead by done.
    injection Hhead as -> Htail. f_equal. apply IH; [done|].
    intros k. specialize (Hf k). rewrite !filter_cons in Hf.
    destruct (decide (key y = k)); [by injection Hf|done].
Qed.

Lemma stableSort_unique l l' :
  l' ≡ₚ l → StronglySorted ascending l' →
  (∀ k, filter (λ a, key a = k) l' = filter (λ a, key a = k) l) →
  l' = stableSort cmp l.
Proof.
  intros _ Hs Hf. apply sorted_stable_unique; [done|apply stableSort_sorted|].
  intros k. by rewrite stableSort_stable.
Qed.
End StableSortFacts.

Lemma StronglySorted_weaken {A} (R R' : A → A → Prop) l :
  (∀ a b, R a b → R' a b) → StronglySorted R l → StronglySorted R' l.
Proof.
  intros HR. induction 1 as [|a l _ IH Ha]; constructor; [done|].
  eapply Forall_impl; [exact Ha|]. auto.
Qed.

(** ** Dates *)

Lemma setHours0_mono c t1 t2 : t1 ≤ t2 → setHours0 c t1 ≤ setHours0 c t2.
Proof.
  intros Ht. unfold setHours0.
  assert ((t1 + utcOffset c) / MS_PER_DAY ≤ (t2 + utcOffset c) / MS_PER_DAY).
  { apply Z.div_le_mono; [reflexivity | lia]. }
  unfold MS_PER_DAY in *. lia.
Qed.

(** A later date is never further from today. *)
Lemma daysDiff_antitone c a b : date a ≤ date b → daysDiff c b ≤ daysDiff c a.
Proof.
  intros Hab. unfold daysDiff.
  apply Z.div_le_mono; [reflexivity|].
  pose proof (setHours0_mono c _ _ Hab). lia.
Qed.

(** Offsets count local calendar days: the day of the clock's reading less
    the day in which the entry's instant falls, the time of day of either
    playing no part. *)
Lemma daysDiff_localDay c day :
  daysDiff c day = localDay c (now c) - localDay c (date day).
Proof.
  unfold daysDiff, today, setHours0, localDay.
  replace (_ - _) with
    (((now c + utcOffset c) / MS_PER_DAY - (date day + utcOffset c) / MS_PER_DAY)
     * MS_PER_DAY) by lia.
  by apply Z.div_mul.
Qed.

(** At or east of UTC midnight UTC of a calendar day falls in that day of
    local time; west of UTC it falls in the day before. *)
Lemma localDay_dateOnly_east c day :
  0 ≤ utcOffset c < MS_PER_DAY → localDay c (dateOnly day) = day.
Proof.
  intros Ho. unfold localDay, dateOnly. symmetry.
  apply (Z.div_unique _ _ _ (utcOffset c)); [left|]; lia.
Qed.

Lemma localDay_dateOnly_west c day :
  - MS_PER_DAY ≤ utcOffset c < 0 → localDay c (dateOnly day) = day - 1.
Proof.
  intros Ho. unfold localDay, dateOnly. symmetry.
  apply (Z.div_unique _ _ _ (utcOffset c + MS_PER_DAY)); [left|]; lia.
Qed.

Lemma daysDiff_calendarEntry_east c day count :
  0 ≤ utcOffset c < MS_PER_DAY →
  daysDiff c (calendarEntry day count) = localDay c (now c) - day.
Proof.
  intros Ho. rewrite daysDiff_localDay. cbn [calendarEntry date].
  by rewrite localDay_dateOnly_east.
Qed.

Lemma daysDiff_calendarEntry_west c day count :
  - MS_PER_DAY ≤ utcOffset c < 0 →
  daysDiff c (calendarEntry day count) = localDay c (now c) - day + 1.
Proof.
  intros Ho. rewrite daysDiff_localDay. cbn [calendarEntry date].
  rewrite localDay_dateOnly_west by done. lia.
Qed.

Lemma sortedDays_perm days : sortedDays days ≡ₚ days.
Proof. apply stableSort_perm. Qed.

Lemma sortedDays_sorted days : StronglySorted (keyLe date) (sortedDays days).
Proof. by apply stableSort_sorted. Qed.

Lemma sortedDays_stable t days :
  filter (λ d, date d = t) (sortedDays days) = filter (λ d, date d = t) days.
Proof. by apply stableSort_stable. Qed.

Lemma sortedDays_id days :
  StronglySorted (keyLe date) days → sortedDays days = days.
Proof. by apply stableSort_sorted_id. Qed.

(** ** The backwards loop is the scan of the reversed array *)

Lemma currentLoop_scanBack c l k cur :
  (k ≤ length l)%nat →
  currentLoop c l k cur = scanBack c (reverse (take k l)) cur.
Proof.
  revert cur. induction k as [|i IH]; intros cur Hk; [done|].
  destruct (lookup_lt_is_Some_2 l i) as [day Hday]; [lia|].
  rewrite (take_S_r _ _ _ Hday), reverse_snoc. simpl. rewrite Hday.
  rewrite !IH by lia. done.
Qed.

Lemma currentLoop_full c l cur :
  currentLoop c l (length l) cur = scanBack c (reverse l) cur.
Proof. rewrite currentLoop_scanBack by done. by rewrite firstn_all. Qed.

Lemma scanBack_sound c l cur : ScanBack c l cur (scanBack c l cur).
Proof.
  revert cur. induction l as [|day rest IH]; intros cur; simpl; [constructor|].
  destruct (Z.ltb_spec 0 (contributionCount day)).
  - destruct (Z.leb_spec (daysDiff c day) (cur + 1)).
    + by apply scan_extend.
    + apply scan_stop_positive; [done|lia].
  - destruct (Z.leb_spec (daysDiff c day) 1).
    + apply scan_grace; [lia|done|done].
    + apply scan_stop_zero; lia.
Qed.

Lemma ScanBack_unique c l cur r : ScanBack c l cur r → r = scanBack c l cur.
Proof.
  induction 1 as [|day rest cur r Hp Hd _ IH|day rest cur Hp Hd
                  |day rest cur r Hp Hd _ IH|day rest cur Hp Hd]; simpl; [done|..].
  - destruct (Z.ltb_spec 0 (contributionCount day)); [|lia].
    destruct (Z.leb_spec (daysDiff c day) (cur + 1)); [done|lia].
  - destruct (Z.ltb_spec 0 (contributionCount day)); [|lia].
    destruct (Z.leb_spec (daysDiff c day) (cur + 1)); [lia|done].
  - destruct (Z.ltb_spec 0 (contributionCount day)); [lia|].
    destruct (Z.leb_spec (daysDiff c day) 1); [done|lia].
  - destruct (Z.ltb_spec 0 (contributionCount day)); [lia|].
    destruct (Z.leb_spec (daysDiff c day) 1); [lia|done].
Qed.

Lemma calculateStreak_current c days :
  current (calculateStreak c days) = scanBack c (reverse (sortedDays days)) 0.
Proof.
  unfold calculateStreak. case_bool_decide as Hlen.
  - by destruct days.
  - simpl. apply currentLoop_full.
Qed.

Lemma calculateStreak_max c days :
  max (calculateStreak c days) = maxLoop (sortedDays days) 0 0.
Proof.
  unfold calculateStreak. case_bool_decide as Hlen; [|done].
  by destruct days.
Qed.

(** ** The current streak *)

Lemma sortedDays_pair a b :
  date a < date b → sortedDays [a; b] = [a; b] ∧ sortedDays [b; a] = [a; b].
Proof.
  intros Hab. unfold sortedDays, byDate. simpl. unfold byDate.
  destruct (Z.leb_spec (date a - date b) 0); [|lia].
  destruct (Z.leb_spec (date b - date a) 0); [lia|done].
Qed.

Lemma scanBack_grace_example c yesterday today' :
  contributionCount yesterday = 3 → contributionCount today' = 0 →
  daysDiff c yesterday = 1 → daysDiff c today' = 0 →
  scanBack c [today'; yesterday] 0 = 1.
Proof. intros Hy Ht Dy Dt. simpl. by rewrite Hy, Ht, Dy, Dt. Qed.

(** The current streak is the outcome of scanning the entries, sorted by
    ascending date, from the most recent one backwards: an entry with a
    positive count extends the streak when its whole-day offset from today is
    at most the streak so far plus one and ends the scan otherwise; an entry
    without a positive count is passed over when its offset is at most one
    and ends the scan otherwise.  The rule determines the result.  For two
    entries at offsets 1 and 0 with counts 3 and 0, given in either order,
    the current streak is 1. *)
Theorem current_streak_scan_rule (c : Clock) (days : list ContributionDay) :
  sortedDays days ≡ₚ days ∧
  StronglySorted (keyLe date) (sortedDays days) ∧
  ScanBack c (reverse (sortedDays days)) 0 (current (calculateStreak c days)) ∧
  (∀ r, ScanBack c (reverse (sortedDays days)) 0 r →
        r = current (calculateStreak c days)) ∧
  (∀ yesterday today',
     days ≡ₚ [yesterday; today'] →
     contributionCount yesterday = 3 → contributionCount today' = 0 →
     daysDiff c yesterday = 1 → daysDiff c today' = 0 →
     current (calculateStreak c days) = 1).
Proof.
  split; [apply sortedDays_perm|].
  split; [apply sortedDays_sorted|].
  rewrite calculateStreak_current.
  split; [apply scanBack_sound|].
  split; [apply ScanBack_unique|].
  intros y t Hperm Hy Ht Dy Dt.
  assert (date y < date t) as Hlt.
  { destruct (Z.lt_ge_cases (date y) (date t)) as [|Hge]; [done|].
    pose proof (daysDiff_antitone c t y). lia. }
  destruct (sortedDays_pair y t Hlt) as [S1 S2].
  symmetry in Hperm. apply Permutation_length_2_inv in Hperm as [->| ->];
    rewrite ?S1, ?S2; by apply scanBack_grace_example.
Qed.

Lemma scanBack_grace_missed c yesterday today' :
  contributionCount yesterday = 3 → contributionCount today' = 0 →
  daysDiff c yesterday = 2 → daysDiff c today' = 1 →
  scanBack c [today'; yesterday] 0 = 0.
Proof. intros Hy Ht Dy Dt. simpl. by rewrite Hy, Ht, Dy, Dt. Qed.

(** C1. The offset of an entry is the number of local calendar days from
    the day in which its instant falls to the day of the clock's reading,
    while the date of an entry, a date without a time, is midnight UTC.  On a
    host at or east of UTC that instant falls in the calendar day the entry
    is dated: the entries dated yesterday and today, with counts 3 and 0 and
    in either order, give a current streak of 1, as stated.  On a host west
    of UTC it falls in the day before: the same entries are 2 and 1 whole
    days from today, today's is passed over, yesterday's is out of range, and
    the current streak is 0. *)
Theorem grace_example_by_zone (c : Clock) :
  (∀ day, daysDiff c day = localDay c (now c) - localDay c (date day)) ∧
  (0 ≤ utcOffset c < MS_PER_DAY →
   (∀ d, localDay c (dateOnly d) = d) ∧
   ∀ days,
     days ≡ₚ [calendarEntry (localDay c (now c) - 1) 3;
              calendarEntry (localDay c (now c)) 0] →
     current (calculateStreak c days) = 1) ∧
  (- MS_PER_DAY ≤ utcOffset c < 0 →
   (∀ d, localDay c (dateOnly d) = d - 1) ∧
   ∀ days,
     days ≡ₚ [calendarEntry (localDay c (now c) - 1) 3;
              calendarEntry (localDay c (now c)) 0] →
     current (calculateStreak c days) = 0).
Proof.
  set (y := calendarEntry (localDay c (now c) - 1) 3).
  set (t := calendarEntry (localDay c (now c)) 0).
  assert (∀ days, days ≡ₚ [y; t] →
            current (calculateStreak c days) = scanBack c [t; y] 0) as Hscan.
  { intros days Hperm. rewrite calculateStreak_current.
    assert (date y < date t) as Hlt.
    { unfold y, t, calendarEntry, dateOnly, MS_PER_DAY. simpl. lia. }
    destruct (sortedDays_pair y t Hlt) as [S1 S2].
    symmetry in Hperm.
    by apply Permutation_length_2_inv in Hperm as [->| ->]; rewrite ?S1, ?S2. }
  split; [apply daysDiff_localDay|].
  split; intros Ho.
  - split; [intros d; by apply localDay_dateOnly_east|].
    intros days Hperm. rewrite Hscan by done.
    apply scanBack_grace_example; [done..| |]; unfold y, t;
      rewrite daysDiff_calendarEntry_east by done; lia.
  - split; [intros d; by apply localDay_dateOnly_west|].
    intros days Hperm. rewrite Hscan by done.
    apply scanBack_grace_missed; [done..| |]; unfold y, t;
      rewrite daysDiff_calendarEntry_west by done; lia.
Qed.

(** C3. The empty list of days gives a summary of zeros. *)
Theorem calculateStreak_empty (c : Clock) :
  calculateStreak c [] = {| current := 0; max := 0 |}.
Proof. reflexivity. Qed.

(** ** The longest streak *)

Lemma maxLoop_ge l t m : m ≤ maxLoop l t m.
Proof.
  revert t m. induction l as [|d l IH]; intros t m; simpl; [lia|].
  destruct (0 <? contributionCount d).
  - etransitivity; [|apply IH]. lia.
  - apply IH.
Qed.

(** Across entries with a positive count the running counter grows by their
    number. *)
Lemma maxLoop_active run rest t m :
  t ≤ m → Forall active run →
  maxLoop (run ++ rest) t m
  = maxLoop rest (t + Z.of_nat (length run)) (Z.max m (t + Z.of_nat (length run))).
Proof.
  intros Htm Hrun. revert t m Htm.
  induction Hrun as [|d run Hd _ IH]; intros t m Htm; simpl.
  - f_equal; lia.
  - unfold active in Hd. destruct (Z.ltb_spec 0 (contributionCount d)); [|lia].
    rewrite IH by lia. f_equal; lia.
Qed.

(** Any entry without a positive count resets it. *)
Lemma maxLoop_inactive gap rest t m :
  gap ≠ [] → Forall (λ d, ¬ active d) gap →
  maxLoop (gap ++ rest) t m = maxLoop rest 0 m.
Proof.
  intros Hne Hgap. revert t. induction Hgap as [|d gap Hd Hgap IH]; intros t; [done|].
  simpl. unfold active in Hd.
  destruct (Z.ltb_spec 0 (contributionCount d)); [lia|].
  destruct gap as [|d' gap]; [done|]. by apply IH.
Qed.

Lemma maxLoop_skip pre rest t m :
  0 ≤ t ≤ m →
  ∃ t' m', 0 ≤ t' ≤ m' ∧ maxLoop (pre ++ rest) t m = maxLoop rest t' m'.
Proof.
  revert t m. induction pre as [|d pre IH]; intros t m Htm; simpl.
  - by exists t, m.
  - destruct (0 <? contributionCount d); apply IH; lia.
Qed.

Lemma maxLoop_upper l run : activeRun l run → Z.of_nat (length run) ≤ maxLoop l 0 0.
Proof.
  intros [(pre & post & ->) Hrun].
  destruct (maxLoop_skip pre (run ++ post) 0 0) as (t & m & Htm & ->); [lia|].
  rewrite maxLoop_active by (done || lia).
  etransitivity; [|apply maxLoop_ge]. lia.
Qed.

Lemma activeRun_snoc l d run : activeRun l run → activeRun (l ++ [d]) run.
Proof.
  intros [(pre & post & ->) Hrun]. split; [|done].
  exists pre, (post ++ [d]). by rewrite <- !(assoc_L (++)).
Qed.

Lemma maxLoop_attained l done' t m :
  (∃ p s, done' = p ++ s ∧ Forall active s ∧ Z.of_nat (length s) = t) →
  (∃ run, activeRun done' run ∧ Z.of_nat (length run) = m) →
  ∃ run, activeRun (done' ++ l) run ∧ Z.of_nat (length run) = maxLoop l t m.
Proof.
  revert done' t m. induction l as [|d l IH]; intros done' t m Hsuf Hrun.
  - by rewrite (right_id_L [] (++)).
  - rewrite (cons_middle d), (assoc_L (++)). simpl.
    destruct Hsuf as (p & s & -> & Hs & Hlen).
    destruct Hrun as (run & Hrun & Hm).
    destruct (Z.ltb_spec 0 (contributionCount d)) as [Hd|Hd]; apply IH.
    + exists p, (s ++ [d]). rewrite (assoc_L (++)). split; [done|].
      split; [apply Forall_app; split; [done|by repeat constructor]|].
      rewrite length_app. simpl. lia.
    + destruct (Z.max_spec m (t + 1)) as [[Hlt ->]|[Hge ->]].
      * exists (s ++ [d]). split.
        -- split; [exists p, []; by rewrite (right_id_L [] (++)), (assoc_L (++))|].
           apply Forall_app; split; [done|by repeat constructor].
        -- rewrite length_app. simpl. lia.
      * exists run. split; [by apply activeRun_snoc|done].
    + exists (p ++ s ++ [d]), []. rewrite (right_id_L [] (++)), (assoc_L (++)).
      by repeat split.
    + exists run. split; [by apply activeRun_snoc|done].
Qed.

Lemma maxLoop_lower l :
  ∃ run, activeRun l run ∧ Z.of_nat (length run) = maxLoop l 0 0.
Proof.
  apply (maxLoop_attained l [] 0 0).
  - by exists [], [].
  - exists []. split; [|done]. split; [by exists [], []|constructor].
Qed.

Lemma scanBack_recent_run c older gap b1 b0 :
  gap ≠ [] → Forall (λ z, contributionCount z = 0 ∧ 2 ≤ daysDiff c z) gap →
  active b1 → active b0 → daysDiff c b1 ≤ 2 → daysDiff c b0 ≤ 1 →
  scanBack c (reverse (older ++ gap ++ [b1; b0])) 0 = 2.
Proof.
  intros Hne Hgap H1 H0 D1 D0. unfold active in *.
  rewrite !reverse_app. simpl.
  destruct (Z.ltb_spec 0 (contributionCount b0)); [|lia].
  destruct (Z.ltb_spec 0 (contributionCount b1)); [|lia].
  destruct (Z.leb_spec (daysDiff c b0) (0 + 1)); [|lia].
  destruct (Z.leb_spec (daysDiff c b1) (0 + 1 + 1)); [|lia].
  destruct gap as [|z gap _] using rev_ind; [done|].
  apply Forall_app in Hgap as [_ Hz]. apply Forall_singleton in Hz as [Hz Dz].
  rewrite reverse_snoc. simpl. rewrite Hz. simpl.
  destruct (Z.leb_spec (daysDiff c z) 1); [lia|done].
Qed.

Lemma foldr_max_ge (l : list Z) m : m ≤ foldr Z.max m l.
Proof. induction l as [|x l IH]; simpl; lia. Qed.

Lemma foldr_max_init (l : list Z) m x :
  foldr Z.max (Z.max m x) l = Z.max x (foldr Z.max m l).
Proof. induction l as [|y l IH]; simpl; lia. Qed.

(** The loop returns the largest value its counter takes. *)
Lemma maxLoop_counter l t m :
  0 ≤ m → maxLoop l t m = foldr Z.max m (runningCounter l t).
Proof.
  revert t m. induction l as [|d l IH]; intros t m Hm; [done|].
  cbn [maxLoop runningCounter foldr].
  destruct (0 <? contributionCount d).
  - rewrite IH by lia. apply foldr_max_init.
  - rewrite IH by done. pose proof (foldr_max_ge (runningCounter l 0) m). lia.
Qed.

(** ** Entries supplied out of order *)

Lemma filter_none {A} (P : A → Prop) `{∀ x, Decision (P x)} (l : list A) :
  Forall (λ x, ¬ P x) l → filter P l = [].
Proof.
  induction 1 as [|x l Hx _ IH]; [done|]. by rewrite filter_cons_False.
Qed.

Lemma filter_date_unique t (l : list ContributionDay) :
  NoDup (date <$> l) → (length (filter (λ d, date d = t) l) ≤ 1)%nat.
Proof.
  induction l as [|d l IH]; [simpl; lia|].
  rewrite fmap_cons, NoDup_cons. intros [Hd Hl]. specialize (IH Hl).
  rewrite filter_cons. case_decide as Ht; [|done].
  rewrite filter_none; [simpl; lia|].
  apply Forall_forall. intros d' Hd' Ht'. apply Hd.
  apply list_elem_of_fmap. exists d'. split; [congruence|done].
Qed.

Lemma short_perm_eq {A} (l1 l2 : list A) :
  l1 ≡ₚ l2 → (length l1 ≤ 1)%nat → l1 = l2.
Proof.
  intros Hp Hlen. destruct l1 as [|x [|y l1]]; simpl in Hlen; [| |lia].
  - by apply Permutation_nil_l in Hp.
  - by apply Permutation_singleton_l in Hp.
Qed.

Lemma sortedDays_perm_invariant days days' :
  NoDup (date <$> days) → days ≡ₚ days' → sortedDays days = sortedDays days'.
Proof.
  intros Hnd Hp.
  apply (sorted_stable_unique date); [apply sortedDays_sorted..|].
  intros t. rewrite !sortedDays_stable.
  apply short_perm_eq; [by rewrite Hp|by apply filter_date_unique].
Qed.

Lemma strictly_sorted_NoDup (l : list ContributionDay) :
  StronglySorted (λ a b, date a < date b) l → NoDup (date <$> l).
Proof.
  induction 1 as [|d l _ IH Hall]; [constructor|].
  rewrite fmap_cons. constructor; [|done].
  intros (d' & Hd & Hin)%list_elem_of_fmap.
  rewrite Forall_forall in Hall. specialize (Hall d' Hin). lia.
Qed.

(** Entries with distinct dates come out in chronological order however
    they were supplied. *)
Lemma sortedDays_chronological days chron :
  days ≡ₚ chron → StronglySorted (λ a b, date a < date b) chron →
  sortedDays days = chron.
Proof.
  intros Hp Hs.
  rewrite <- (sortedDays_perm_invariant chron days)
    by (by apply strictly_sorted_NoDup || done).
  apply sortedDays_id. eapply StronglySorted_weaken; [|exact Hs].
  unfold keyLe. intros a b. lia.
Qed.

Lemma recent_run_after_history c days older gap b1 b0 :
  sortedDays days = older ++ gap ++ [b1; b0] →
  length older = 10%nat → Forall active older →
  gap ≠ [] → Forall (λ z, contributionCount z = 0 ∧ 2 ≤ daysDiff c z) gap →
  active b1 → active b0 → daysDiff c b1 ≤ 2 → daysDiff c b0 ≤ 1 →
  max (calculateStreak c days) = 10 ∧ current (calculateStreak c days) = 2.
Proof.
  intros Hsorted Hlen Holder Hne Hgap H1 H0 D1 D0.
  rewrite calculateStreak_max, calculateStreak_current, Hsorted. split.
  - rewrite maxLoop_active by (done || lia).
    rewrite maxLoop_inactive; [|done|].
    + simpl. unfold active in H1, H0.
      destruct (Z.ltb_spec 0 (contributionCount b1)); [|lia].
      destruct (Z.ltb_spec 0 (contributionCount b0)); [|lia].
      rewrite Hlen. lia.
    + eapply Forall_impl; [exact Hgap|]. unfold active. simpl. lia.
  - by apply scanBack_recent_run.
Qed.

(** Within a day of UTC on either side, a calendar entry is as many whole
    days from today as its date says, or one more. *)
Lemma daysDiff_calendarEntry c day count :
  - MS_PER_DAY ≤ utcOffset c < MS_PER_DAY →
  localDay c (now c) - day ≤ daysDiff c (calendarEntry day count)
                           ≤ localDay c (now c) - day + 1.
Proof.
  intros Ho. destruct (Z.lt_ge_cases (utcOffset c) 0).
  - rewrite daysDiff_calendarEntry_west by lia. lia.
  - rewrite daysDiff_calendarEntry_east by lia. lia.
Qed.

Lemma calendar_history c days :
  - MS_PER_DAY ≤ utcOffset c < MS_PER_DAY →
  days ≡ₚ historyEndingOn (localDay c (now c)) →
  max (calculateStreak c days) = 10 ∧ current (calculateStreak c days) = 2.
Proof.
  intros Ho Hp. remember (localDay c (now c)) as last eqn:Hlast.
  assert (∀ k n, k ≤ daysDiff c (calendarEntry (last - k) n) ≤ k + 1) as Hoff.
  { intros k n. pose proof (daysDiff_calendarEntry c (last - k) n Ho) as H.
    rewrite <- Hlast in H. lia. }
  apply (recent_run_after_history c days
           ((λ k, calendarEntry (last - k) 1) <$> [14; 13; 12; 11; 10; 9; 8; 7; 6; 5])
           ((λ k, calendarEntry (last - k) 0) <$> [4; 3; 2])
           (calendarEntry (last - 1) 2) (calendarEntry last 5)).
  - apply sortedDays_chronological; [done|].
    repeat constructor; cbn [date calendarEntry];
      unfold dateOnly, MS_PER_DAY; lia.
  - done.
  - repeat constructor.
  - done.
  - apply Forall_fmap, Forall_forall. intros k Hk. simpl.
    split; [done|]. destruct (Hoff k 0) as [Hlow _].
    assert (2 ≤ k); [|lia].
    repeat (apply elem_of_cons in Hk as [->|Hk]; [lia|]).
    by apply elem_of_nil in Hk.
  - done.
  - done.
  - destruct (Hoff 1 2). lia.
  - replace last with (last - 0) by lia. destruct (Hoff 0 5). lia.
Qed.

(** C2. The entries are put in ascending order of date, entries with the
    same date keeping the order they were given in.  The longest streak is
    the length of the longest stretch of entries with a positive count at
    consecutive positions of that list: some such stretch has that length and
    none is longer.  It is the largest value taken by a counter that goes up
    by one at each entry with a positive count and back to zero at any other
    entry, and it is the same whatever the clock reads.  Take ten entries
    with a positive count, then one or more zero-count entries at least two
    whole days from today, then two entries with a positive count at most
    two days and at most one day from today (yesterday's and today's), all in
    chronological order; supplied in that order, or in any order when their
    dates are distinct, they give a longest streak of 10 and a current streak
    of 2.  So does, on any host within a day of UTC, the calendar of fifteen
    consecutive days ending today whose first ten and last two days have
    contributions, supplied in any order. *)
Theorem max_streak_longest_run (c : Clock) (days : list ContributionDay) :
  sortedDays days ≡ₚ days ∧
  StronglySorted (keyLe date) (sortedDays days) ∧
  (∀ t, filter (λ d, date d = t) (sortedDays days) = filter (λ d, date d = t) days) ∧
  (∃ run, activeRun (sortedDays days) run
          ∧ Z.of_nat (length run) = max (calculateStreak c days)) ∧
  (∀ run, activeRun (sortedDays days) run →
          Z.of_nat (length run) ≤ max (calculateStreak c days)) ∧
  max (calculateStreak c days)
    = foldr Z.max 0 (runningCounter (sortedDays days) 0) ∧
  (∀ c', max (calculateStreak c' days) = max (calculateStreak c days)) ∧
  (∀ older gap b1 b0,
     (days = older ++ gap ++ [b1; b0] ∧ StronglySorted (keyLe date) days
      ∨ days ≡ₚ older ++ gap ++ [b1; b0]
        ∧ StronglySorted (λ a b, date a < date b) (older ++ gap ++ [b1; b0])) →
     length older = 10%nat → Forall active older →
     gap ≠ [] → Forall (λ z, contributionCount z = 0 ∧ 2 ≤ daysDiff c z) gap →
     active b1 → active b0 → daysDiff c b1 ≤ 2 → daysDiff c b0 ≤ 1 →
     max (calculateStreak c days) = 10 ∧ current (calculateStreak c days) = 2) ∧
  (- MS_PER_DAY ≤ utcOffset c < MS_PER_DAY →
   days ≡ₚ historyEndingOn (localDay c (now c)) →
   max (calculateStreak c days) = 10 ∧ current (calculateStreak c days) = 2).
Proof.
  split; [apply sortedDays_perm|].
  split; [apply sortedDays_sorted|].
  split; [intros t; apply sortedDays_stable|].
  rewrite !calculateStreak_max.
  split; [apply maxLoop_lower|].
  split; [apply maxLoop_upper|].
  split; [by apply maxLoop_counter|].
  split; [intros c'; by rewrite calculateStreak_max|].
  split.
  - intros older gap b1 b0 Horder Hlen Holder Hne Hgap H1 H0 D1 D0.
    rewrite <- calculateStreak_max with (c := c).
    apply (recent_run_after_history c days older gap b1 b0); try done.
    destruct Horder as [[E Hs]|[Hp Hs]].
    + rewrite <- E. by apply sortedDays_id.
    + by apply sortedDays_chronological.
  - intros Ho Hp. rewrite <- calculateStreak_max with (c := c).
    by apply calendar_history.
Qed.

(** ** Longest against current streak *)

Lemma scanBack_inactive c l cur :
  Forall (λ d, ¬ active d) l → scanBack c l cur = cur.
Proof.
  induction 1 as [|d l Hd _ IH]; simpl; [done|]. unfold active in Hd.
  destruct (Z.ltb_spec 0 (contributionCount d)); [lia|].
  by destruct (daysDiff c d <=? 1).
Qed.

(** Once no skipped entry can follow, the scan counts a block of adjacent
    entries. *)
Lemma scanBack_prefix c l cur N :
  (∀ run rest, l = run ++ rest → Forall active run →
               cur + Z.of_nat (length run) ≤ N) →
  ¬ gapBeforeActive c l →
  scanBack c l cur ≤ N.
Proof.
  revert cur. induction l as [|d l IH]; intros cur Hrun Hgap; simpl.
  - specialize (Hrun [] [] eq_refl (Forall_nil_2 _)). simpl in Hrun. lia.
  - pose proof (Hrun [] (d :: l) eq_refl (Forall_nil_2 _)) as Hcur. simpl in Hcur.
    destruct (Z.ltb_spec 0 (contributionCount d)) as [Hd|Hd].
    + destruct (Z.leb_spec (daysDiff c d) (cur + 1)); [|lia].
      apply IH.
      * intros run rest -> Hact.
        specialize (Hrun (d :: run) rest eq_refl (Forall_cons_2 active _ _ Hd Hact)).
        simpl in Hrun. lia.
      * intros (l2 & z & l3 & q & l4 & -> & Hz & Dz & Hq).
        apply Hgap. by exists (d :: l2), z, l3, q, l4.
    + destruct (Z.leb_spec (daysDiff c d) 1) as [Dd|Dd]; [|lia].
      rewrite scanBack_inactive; [lia|].
      apply Forall_forall. intros q Hq Hact.
      apply list_elem_of_split in Hq as (l3 & l4 & ->).
      apply Hgap. exists [], d, l3, q, l4. unfold active. repeat split; [lia|done..].
Qed.

Lemma scanBack_le_run c l N :
  (∀ run, activeRun l run → Z.of_nat (length run) ≤ N) →
  ¬ bridgedGap c l →
  scanBack c l 0 ≤ N.
Proof.
  induction l as [|d l IH]; intros Hrun Hgap; simpl.
  - apply (Hrun []). split; [by exists [], []|constructor].
  - assert (0 ≤ N) as HN.
    { apply (Hrun []). split; [by exists [], (d :: l)|constructor]. }
    assert (scanBack c l 0 ≤ N) as Hrest.
    { apply IH.
      - intros run [(pre & post & ->) Hact]. apply Hrun.
        split; [by exists (d :: pre), post|done].
      - intros (l1 & p & l2 & z & l3 & q & l4 & -> & Hp & Hz & Dz & Hq).
        apply Hgap. by exists (d :: l1), p, l2, z, l3, q, l4. }
    destruct (Z.ltb_spec 0 (contributionCount d)) as [Hd|Hd].
    + destruct (Z.leb_spec (daysDiff c d) (0 + 1)); [|lia].
      apply scanBack_prefix.
      * intros run rest -> Hact.
        specialize (Hrun (d :: run)). simpl in Hrun.
        etransitivity; [|apply Hrun]; [lia|].
        split; [by exists [], rest|by constructor].
      * intros (l2 & z & l3 & q & l4 & -> & Hz & Dz & Hq).
        apply Hgap. by exists [], d, l2, z, l3, q, l4.
    + by destruct (daysDiff c d <=? 1).
Qed.

Lemma activeRun_reverse l run : activeRun (reverse l) run → activeRun l (reverse run).
Proof.
  intros [(pre & post & Hl) Hact]. split; [|by apply Forall_reverse].
  exists (reverse post), (reverse pre).
  apply (f_equal reverse) in Hl. rewrite reverse_involutive in Hl.
  by rewrite Hl, !reverse_app, (assoc_L (++)).
Qed.

Lemma bridgedGap_reverse c l : bridgedGap c (reverse l) → bridgedGap c l.
Proof.
  intros (l1 & p & l2 & z & l3 & q & l4 & Hl & Hp & Hz & Dz & Hq).
  exists (reverse l4), q, (reverse l3), z, (reverse l2), p, (reverse l1).
  repeat split; try done.
  apply (f_equal reverse) in Hl. rewrite reverse_involutive in Hl. rewrite Hl.
  rewrite !reverse_app, !reverse_cons, !reverse_app, !reverse_cons, !reverse_app,
    !reverse_cons.
  by rewrite <- !(assoc_L (++)).
Qed.

Lemma all_active_no_bridgedGap c l : Forall active l → ¬ bridgedGap c l.
Proof.
  intros Hact (l1 & p & l2 & z & l3 & q & l4 & -> & _ & Hz & _).
  apply Hz. rewrite Forall_forall in Hact. apply Hact.
  set_solver.
Qed.

(** The day set on which the longest streak falls short of the current one:
    a zero-count yesterday between two days with contributions is passed
    over, so the scan counts 2 while no two adjacent entries are positive. *)
Lemma max_ge_current_fails :
  ¬ (max (calculateStreak exampleClock bridgedDays)
     >= current (calculateStreak exampleClock bridgedDays)).
Proof. intros H. vm_compute in H. by apply H. Qed.

(** C6, amended.  The longest streak is at least the current streak for
    every day list in which no zero-count entry inside the grace window
    (offset at most one) lies between two entries with a positive count in
    date order. *)
Theorem max_ge_current_unless_bridged (c : Clock) (days : list ContributionDay) :
  ¬ bridgedGap c (sortedDays days) →
  max (calculateStreak c days) >= current (calculateStreak c days).
Proof.
  intros Hgap. rewrite calculateStreak_max, calculateStreak_current.
  apply Z.le_ge. apply scanBack_le_run.
  - intros run Hrun. rewrite <- length_reverse.
    apply maxLoop_upper. by apply activeRun_reverse.
  - intros H. by apply Hgap, bridgedGap_reverse.
Qed.

Lemma max_ge_current_unless_bridged_witness :
  max (calculateStreak exampleClock fiveDays)
  >= current (calculateStreak exampleClock fiveDays).
Proof.
  apply (max_ge_current_unless_bridged exampleClock fiveDays).
  apply all_active_no_bridgedGap. vm_compute.
  repeat constructor.
Defined.

(** ** Bounds *)

Lemma activeDays_cons d l :
  activeDays (d :: l) = (if 0 <? contributionCount d then 1 else 0) + activeDays l.
Proof.
  unfold activeDays. rewrite filter_cons. unfold active at 1.
  destruct (Z.ltb_spec 0 (contributionCount d)); case_decide; try lia.
  simpl length. lia.
Qed.

Lemma activeDays_nonneg l : 0 ≤ activeDays l.
Proof. unfold activeDays. lia. Qed.

Lemma activeDays_perm l1 l2 : l1 ≡ₚ l2 → activeDays l1 = activeDays l2.
Proof. intros H. unfold activeDays. by rewrite H. Qed.

Lemma activeDays_sorted days : activeDays (reverse (sortedDays days)) = activeDays days.
Proof.
  apply activeDays_perm. by rewrite reverse_Permutation, sortedDays_perm.
Qed.

Lemma scanBack_bounds c l cur :
  cur ≤ scanBack c l cur ≤ cur + activeDays l ∧
  0 ≤ graceSkipped c l cur ∧
  activeDays l + graceSkipped c l cur ≤ Z.of_nat (length l).
Proof.
  revert cur. induction l as [|d l IH]; intros cur.
  - unfold activeDays. simpl. lia.
  - rewrite activeDays_cons. simpl scanBack. simpl graceSkipped.
    pose proof (activeDays_nonneg l).
    pose proof (length_filter active l) as Hlen. fold (activeDays l) in Hlen.
    assert (activeDays l ≤ Z.of_nat (length l)) by (unfold activeDays; lia).
    destruct (0 <? contributionCount d).
    + destruct (daysDiff c d <=? cur + 1).
      * specialize (IH (cur + 1)). simpl length. lia.
      * simpl length. lia.
    + destruct (daysDiff c d <=? 1).
      * specialize (IH cur). simpl length. lia.
      * simpl length. lia.
Qed.

Lemma maxLoop_le_active l t m :
  0 ≤ t → maxLoop l t m ≤ Z.max m (t + activeDays l).
Proof.
  revert t m. induction l as [|d l IH]; intros t m Ht.
  - unfold activeDays. simpl. lia.
  - rewrite activeDays_cons. simpl. pose proof (activeDays_nonneg l).
    destruct (0 <? contributionCount d).
    + etransitivity; [apply IH; lia|]. lia.
    + etransitivity; [apply IH; lia|]. lia.
Qed.

Lemma activeDays_idle l :
  Forall (λ d, contributionCount d = 0) l → activeDays l = 0.
Proof.
  induction 1 as [|d l Hd _ IH]; [done|].
  rewrite activeDays_cons, IH, Hd. done.
Qed.

(** C10. Both counts are non-negative.  The current streak is at most the
    number of entries with a positive count (so also at most that number plus
    the number of zero-count entries passed over, which together do not
    exceed the length of the list); the longest streak is at most the number
    of entries with a positive count.  A non-empty list whose entries all
    have count zero gives a summary of zeros. *)
Theorem streak_bounds (c : Clock) (days : list ContributionDay) :
  0 ≤ current (calculateStreak c days) ∧
  0 ≤ max (calculateStreak c days) ∧
  0 ≤ graceSkipped c (reverse (sortedDays days)) 0 ∧
  current (calculateStreak c days) ≤ activeDays days ∧
  current (calculateStreak c days)
    ≤ activeDays days + graceSkipped c (reverse (sortedDays days)) 0 ∧
  activeDays days + graceSkipped c (reverse (sortedDays days)) 0
    ≤ Z.of_nat (length days) ∧
  max (calculateStreak c days) ≤ activeDays days ∧
  (days ≠ [] → Forall (λ d, contributionCount d = 0) days →
   calculateStreak c days = {| current := 0; max := 0 |}).
Proof.
  pose proof (scanBack_bounds c (reverse (sortedDays days)) 0) as (Hcur & Hsk & Hlen).
  rewrite activeDays_sorted, length_reverse, (stableSort_length byDate) in *.
  pose proof (maxLoop_le_active (sortedDays days) 0 0 ltac:(lia)) as Hmax.
  rewrite (activeDays_perm _ _ (sortedDays_perm days)) in Hmax.
  pose proof (maxLoop_ge (sortedDays days) 0 0) as Hmax0.
  pose proof (activeDays_nonneg days).
  rewrite <- calculateStreak_current in Hcur.
  rewrite <- (calculateStreak_max c) in Hmax, Hmax0.
  repeat split; try lia.
  intros _ Hidle. apply activeDays_idle in Hidle.
  destruct (calculateStreak c days) as [cu mx]. simpl in *. f_equal; lia.
Qed.

Lemma streak_bounds_witness :
  calculateStreak exampleClock idleDays = {| current := 0; max := 0 |}.
Proof.
  apply (streak_bounds exampleClock idleDays); [done|].
  repeat constructor.
Defined.

(** ** The rules at concrete day lists *)

Ltac by_evaluation := repeat constructor; vm_compute; done.

Lemma current_streak_scan_rule_witness :
  current (calculateStreak exampleClock graceDays) = 1.
Proof.
  apply (current_streak_scan_rule exampleClock graceDays)
    with (yesterday := daysAgo 1 3) (today' := daysAgo 0 0);
    [apply Permutation_swap | reflexivity..].
Defined.

Lemma grace_example_by_zone_witness :
  current (calculateStreak exampleClock graceDays) = 1 ∧
  current (calculateStreak westClock graceDays) = 0.
Proof.
  split.
  - pose proof (grace_example_by_zone exampleClock) as (_ & H & _).
    apply H; [by vm_compute | apply Permutation_swap].
  - pose proof (grace_example_by_zone westClock) as (_ & _ & H).
    apply H; [by vm_compute | apply Permutation_swap].
Defined.

Lemma max_streak_longest_run_witness :
  (max (calculateStreak exampleClock (reverse historicalDays)) = 10 ∧
   current (calculateStreak exampleClock (reverse historicalDays)) = 2) ∧
  (max (calculateStreak westClock (reverse historicalDays)) = 10 ∧
   current (calculateStreak westClock (reverse historicalDays)) = 2).
Proof.
  split.
  - pose proof (max_streak_longest_run exampleClock (reverse historicalDays))
      as (_ & _ & _ & _ & _ & _ & _ & H & _).
    apply (H ((λ n, daysAgo n 1) <$> [14; 13; 12; 11; 10; 9; 8; 7; 6; 5])
             [daysAgo 4 0; daysAgo 3 0; daysAgo 2 0] (daysAgo 1 2) (daysAgo 0 5));
      [right; split; [apply reverse_Permutation | by_evaluation]
      | reflexivity | by_evaluation | done
      | by_evaluation | by_evaluation | by_evaluation
      | by vm_compute | by vm_compute].
  - pose proof (max_streak_longest_run westClock (reverse historicalDays))
      as (_ & _ & _ & _ & _ & _ & _ & _ & H).
    apply H; [by vm_compute | apply reverse_Permutation].
Defined.

(** The two recent entries with a positive count are both counted west of
    UTC as well, where they are one and two whole days from today. *)
Example recent_run_west_of_utc :
  daysDiff westClock <$> [daysAgo 2 0; daysAgo 1 2; daysAgo 0 5] = [3; 2; 1] ∧
  calculateStreak westClock historicalDays = {| current := 2; max := 10 |}.
Proof. by vm_compute. Qed.

(** A zero-count entry two days old ends the scan where it stands. *)
Example two_day_old_gap_stops :
  calculateStreak exampleClock [daysAgo 3 4; daysAgo 2 0; daysAgo 1 0; daysAgo 0 0]
  = {| current := 0; max := 1 |}.
Proof. reflexivity. Qed.

(** Offsets are measured between local midnights while a date without a
    time is midnight UTC: west of UTC the entry dated today is one whole day
    from today and the entry dated yesterday two. *)
Example offsets_west_of_utc :
  daysDiff exampleClock <$> graceDays = [0; 1] ∧
  daysDiff westClock <$> graceDays = [1; 2] ∧
  current (calculateStreak westClock graceDays) = 0.
Proof. by vm_compute. Qed.

Example five_day_streak :
  calculateStreak exampleClock fiveDays = {| current := 5; max := 5 |}.
Proof. reflexivity. Qed.

(** ** The input array is not written to *)

Lemma derefDays_zip h refs ds :
  derefDays h refs = Some ds →
  Forall (λ p, dayObjects h !! p.1 = Some p.2) (zip refs ds) ∧ (zip refs ds).*2 = ds.
Proof.
  unfold derefDays. rewrite mapM_Some.
  induction 1 as [|r d refs ds Hr _ [IH1 IH2]]; [done|].
  change (zip (r :: refs) (d :: ds)) with ((r, d) :: zip refs ds).
  split; [by constructor|]. by rewrite fmap_cons, IH2.
Qed.

Lemma derefDays_pairs h (l : list (loc * ContributionDay)) :
  Forall (λ p, dayObjects h !! p.1 = Some p.2) l →
  derefDays h (l.*1) = Some (l.*2).
Proof.
  intros Hl. unfold derefDays. apply mapM_Some.
  induction Hl as [|[r d] l Hr _ IH]; simpl; by constructor.
Qed.

(** Sorting the references by the dates behind them sorts the days. *)
Lemma derefDays_sorted h refs ds :
  derefDays h refs = Some ds →
  derefDays h (stableSort (λ a b, byDate a.2 b.2) (zip refs ds)).*1
  = Some (sortedDays ds).
Proof.
  intros Hds. destruct (derefDays_zip _ _ _ Hds) as [Hall Hsnd].
  rewrite derefDays_pairs.
  - f_equal. unfold sortedDays. rewrite <- Hsnd at 2.
    apply (stableSort_fmap byDate snd).
  - by rewrite stableSort_perm.
Qed.

Lemma calculateStreakH_unfold c h input refs ds :
  arrays h !! input = Some refs → derefDays h refs = Some ds →
  calculateStreakH c h input =
    if bool_decide (length refs = 0%nat) then Some (h, calculateStreak c ds)
    else
      let l := fresh (dom (arrays h)) in
      let sorted := stableSort (λ a b, byDate a.2 b.2) (zip refs ds) in
      Some ({| arrays := <[l := sorted.*1]> (<[l := refs]> (arrays h));
               dayObjects := dayObjects h |},
            calculateStreak c ds).
Proof.
  intros Hrefs Hds. unfold calculateStreakH, spreadCopy, sortInPlace.
  rewrite Hrefs. simpl.
  assert (length ds = length refs) as Hlen.
  { unfold derefDays in Hds. by apply length_mapM in Hds. }
  case_bool_decide as Hempty.
  - destruct ds; [done|]. simpl in Hlen. lia.
  - simpl. rewrite lookup_insert_eq. simpl.
    change (derefDays {| arrays := <[fresh (dom (arrays h)):=refs]> (arrays h);
                         dayObjects := dayObjects h |} refs)
      with (derefDays h refs).
    rewrite Hds. simpl. rewrite lookup_insert_eq. simpl.
    change (derefDays {| arrays := ?a; dayObjects := dayObjects h |} ?r)
      with (derefDays h r).
    rewrite (derefDays_sorted _ _ _ Hds). simpl.
    unfold calculateStreak. rewrite bool_decide_eq_false_2 by lia. done.
Qed.

(** C7. Called on an array of day objects, [calculateStreak] returns the
    summary computed from the days and leaves the store as it was except for
    one newly allocated array: the argument array still holds the same
    elements in the same order, every day object is unchanged, and so is
    every other array that existed before the call. *)
Theorem calculateStreak_leaves_input (c : Clock) (h : heap) (input : loc)
    (refs : list loc) (ds : list ContributionDay) :
  arrays h !! input = Some refs → derefDays h refs = Some ds →
  ∃ h', calculateStreakH c h input = Some (h', calculateStreak c ds) ∧
        arrays h' !! input = Some refs ∧
        dayObjects h' = dayObjects h ∧
        (∀ l, l ∈ dom (arrays h) → arrays h' !! l = arrays h !! l).
Proof.
  intros Hrefs Hds. rewrite (calculateStreakH_unfold c h input refs ds) by done.
  case_bool_decide; [by exists h|].
  eexists. split; [reflexivity|]. simpl.
  assert (∀ l, l ∈ dom (arrays h) → l ≠ fresh (dom (arrays h))) as Hfresh.
  { intros l Hl ->. by apply (is_fresh (dom (arrays h))). }
  split; [|split; [done|]].
  - rewrite !lookup_insert_ne; [done|..];
      apply not_eq_sym, Hfresh, elem_of_dom; by rewrite Hrefs.
  - intros l Hl. rewrite !lookup_insert_ne; [done|..]; by apply not_eq_sym, Hfresh.
Qed.

Lemma calculateStreak_leaves_input_witness :
  ∃ h', calculateStreakH exampleClock exampleHeap 1
        = Some (h', calculateStreak exampleClock graceDays) ∧
        arrays h' !! 1%positive = Some [10%positive; 11%positive] ∧
        dayObjects h' = dayObjects exampleHeap ∧
        (∀ l, l ∈ dom (arrays exampleHeap) → arrays h' !! l = arrays exampleHeap !! l).
Proof.
  apply (calculateStreak_leaves_input exampleClock exampleHeap 1
           [10%positive; 11%positive] graceDays); reflexivity.
Defined.

(** Sorting the argument itself would reorder it: the copy matters. *)
Example sort_without_copy_reorders :
  (sortArgumentH exampleHeap 1 ≫= λ h', arrays h' !! 1%positive)
  = Some [11%positive; 10%positive].
Proof. reflexivity. Qed.

(** ** Contribution totals *)

(** C9. When the response carries no errors and a user, the contribution
    totals are returned and their pull-request count is the sum of the
    authored pull-request contributions and the pull-request review
    contributions of the response. *)
Theorem totalPRs_authored_plus_reviews (c : Clock) (response : GraphQLResponse)
    (contributions : ContributionsCollection) :
  errors response = None → data response = Some (Some contributions) →
  ∃ stats, fetchContributionData c response = Ok stats ∧
           totalPRs stats = totalPullRequestContributions contributions
                            + totalPullRequestReviewContributions contributions.
Proof.
  intros Herr Hdata. unfold fetchContributionData. rewrite Herr, Hdata.
  eexists. split; reflexivity.
Qed.

Lemma totalPRs_authored_plus_reviews_witness :
  ∃ stats, fetchContributionData exampleClock exampleResponse = Ok stats ∧
           totalPRs stats = 7 + 5.
Proof.
  apply (totalPRs_authored_plus_reviews exampleClock exampleResponse
           exampleContributions); reflexivity.
Defined.

(** ** The summary *)

Section SummaryFacts.
Import Summary.

Lemma getProp_present v p : isNullish v = false → ∃ w, getProp v p = Ok w.
Proof. destruct v; simpl; intros; try done; by eexists. Qed.

Lemma getProp_nullish v p : isNullish v = true → getProp v p = Throw (TypeError p).
Proof. by destruct v. Qed.






(** C8. Two constructions of the summary from the same user name and the
    same four sub-results, at whatever readings of the clock, either both
    throw the same error or both succeed with summaries that agree on every
    field once [fetchedAt] is set aside; [fetchedAt] is the reading of the
    clock. *)
Theorem summary_deterministic (c1 c2 : Clock)
    (userName userStats repoStats contributionStats languageStats : value) :
  match buildSummary c1 userName userStats repoStats contributionStats languageStats,
        buildSummary c2 userName userStats repoStats contributionStats languageStats
  with
  | Ok s1, Ok s2 =>
      withoutFetchedAt s1 = withoutFetchedAt s2 ∧
      fetchedAt s1 = now c1 ∧ fetchedAt s2 = now c2
  | Throw e1, Throw e2 => e1 = e2
  | _, _ => False
  end.
Proof.
  unfold buildSummary.
  repeat (match goal with
          | |- context [getProp ?v ?p] => destruct (getProp v p); simpl; [|done]
          end).
  done.
Qed.

End SummaryFacts.

(** ** Counting languages *)

Lemma countLanguages_names repos :
  countLanguages repos
  = fold_left (λ acc n, increment n acc) (omap primaryLanguage repos) [].
Proof.
  unfold countLanguages. generalize (@nil (string * Z)).
  induction repos as [|r repos IH]; intros acc; simpl; [done|].
  destruct (primaryLanguage r); simpl; apply IH.
Qed.

Lemma increment_keys n acc :
  (increment n acc).*1 = if decide (n ∈ acc.*1) then acc.*1 else acc.*1 ++ [n].
Proof.
  induction acc as [|[m k] acc IH]; [done|].
  cbn [increment]. rewrite !fmap_cons. cbn [fst].
  destruct (decide (m = n)) as [->|Hne].
  - rewrite decide_True by (apply elem_of_cons; by left). done.
  - rewrite fmap_cons, IH. cbn [fst].
    destruct (decide (n ∈ acc.*1)) as [Hin|Hnin].
    + rewrite decide_True by (apply elem_of_cons; by right). done.
    + rewrite decide_False by (apply not_elem_of_cons; by split). done.
Qed.

Lemma increment_countFor n m acc :
  countFor m (increment n acc) = countFor m acc + (if decide (n = m) then 1 else 0).
Proof.
  induction acc as [|[q k] acc IH]; simpl.
  - repeat case_decide; congruence || lia.
  - destruct (decide (q = n)) as [->|Hne]; simpl.
    + repeat case_decide; congruence || lia.
    + rewrite IH. repeat case_decide; congruence || lia.
Qed.

Lemma increment_positive n acc :
  Forall (λ e, 0 < e.2) acc → Forall (λ e, 0 < e.2) (increment n acc).
Proof.
  induction 1 as [|[m k] acc Hk Hacc IH]; simpl.
  - repeat constructor.
  - case_decide; constructor; simpl in *; (done || lia).
Qed.

Lemma fold_increment_keys names acc :
  (fold_left (λ acc n, increment n acc) names acc).*1
  = acc.*1 ++ filter (λ n, n ∉ acc.*1) (encounterOrder names).
Proof.
  revert acc. induction names as [|n names IH]; intros acc.
  - simpl. by rewrite filter_nil, (right_id_L [] (++)).
  - cbn [fold_left encounterOrder].
    rewrite IH, increment_keys. destruct (decide (n ∈ acc.*1)) as [Hin|Hnin].
    + rewrite filter_cons_False by (intros H; by apply H).
      rewrite list_filter_filter. f_equal. apply list_filter_iff.
      intros m. split; [|tauto]. intros Hm. split; [done|]. by intros ->.
    + rewrite filter_cons_True by done.
      rewrite <- (assoc_L (++)). simpl. do 2 f_equal.
      rewrite list_filter_filter. apply list_filter_iff.
      intros m. rewrite elem_of_app, list_elem_of_singleton. tauto.
Qed.

Lemma fold_increment_countFor m names acc :
  countFor m (fold_left (λ acc n, increment n acc) names acc)
  = countFor m acc + Z.of_nat (length (filter (λ n, n = m) names)).
Proof.
  revert acc. induction names as [|n names IH]; intros acc; simpl; [lia|].
  rewrite IH, increment_countFor, filter_cons.
  repeat case_decide; try congruence; simpl length; lia.
Qed.

Lemma fold_increment_positive names acc :
  Forall (λ e, 0 < e.2) acc →
  Forall (λ e, 0 < e.2) (fold_left (λ acc n, increment n acc) names acc).
Proof.
  revert acc. induction names as [|n names IH]; intros acc Hacc; simpl; [done|].
  by apply IH, increment_positive.
Qed.

Lemma encounterOrder_NoDup names : NoDup (encounterOrder names).
Proof.
  induction names as [|n names IH]; simpl; constructor.
  - rewrite list_elem_of_filter. by intros [? _].
  - by apply NoDup_filter.
Qed.

Lemma countLanguages_keys repos :
  (countLanguages repos).*1 = encounterOrder (omap primaryLanguage repos).
Proof.
  rewrite countLanguages_names, fold_increment_keys. simpl.
  induction (encounterOrder _) as [|n l IH]; [done|].
  rewrite filter_cons_True by set_solver. by rewrite IH.
Qed.

Lemma countLanguages_positive repos : Forall (λ e, 0 < e.2) (countLanguages repos).
Proof. rewrite countLanguages_names. by apply fold_increment_positive. Qed.

Lemma countLanguages_countFor n repos :
  n ≠ "" → countFor n (countLanguages repos) = reposIn n repos.
Proof.
  intros Hn. rewrite countLanguages_names, fold_increment_countFor.
  unfold reposIn. cbn [countFor]. rewrite Z.add_0_l. do 2 f_equal.
  induction repos as [|r repos IH]; [done|].
  rewrite filter_cons. cbn [omap list_omap]. unfold primaryLanguage at 1.
  destruct (language r) as [m|] eqn:Hm.
  - destruct (decide (m = "")) as [->|Hne].
    + rewrite decide_False by congruence. done.
    + rewrite filter_cons. destruct (decide (m = n)) as [->|Hmn].
      * rewrite decide_True by done. simpl. by rewrite IH.
      * rewrite decide_False by congruence. done.
  - rewrite decide_False by done. done.
Qed.

Lemma omap_primaryLanguage_filter (repos : list Repo) :
  omap primaryLanguage (filter (λ r, is_Some (primaryLanguage r)) repos)
  = omap primaryLanguage repos.
Proof.
  induction repos as [|r repos IH]; [done|].
  rewrite filter_cons. destruct (primaryLanguage r) as [n|] eqn:Hr.
  - rewrite decide_True by done. cbn [omap list_omap]. by rewrite Hr, IH.
  - rewrite decide_False by (by intros [? ?]). cbn [omap list_omap].
    by rewrite Hr.
Qed.

(** ** Ranking *)

Lemma byCountDesc_key a b : byCountDesc a b = (λ e, - e.2) a - (λ e, - e.2) b.
Proof. unfold byCountDesc. lia. Qed.

Lemma ranked_perm counts : stableSort byCountDesc counts ≡ₚ counts.
Proof. apply stableSort_perm. Qed.

Lemma ranked_sorted counts :
  StronglySorted (λ a b, b.2 ≤ a.2) (stableSort byCountDesc counts).
Proof.
  eapply StronglySorted_weaken;
    [|apply (stableSort_sorted byCountDesc (λ e, - e.2) byCountDesc_key)].
  unfold keyLe. intros a b. simpl. lia.
Qed.

Lemma ranked_stable k counts :
  filter (λ e, e.2 = k) (stableSort byCountDesc counts)
  = filter (λ e, e.2 = k) counts.
Proof.
  pose proof (stableSort_stable byCountDesc (λ e, - e.2) byCountDesc_key (- k) counts)
    as H.
  etransitivity; [|etransitivity; [exact H|]]; apply list_filter_iff;
    intros e; simpl; lia.
Qed.

Lemma fold_left_sum (l : list (string * Z)) acc :
  fold_left (λ sum lang, sum + lang.2) l acc = acc + sumZ l.*2.
Proof.
  revert acc. induction l as [|e l IH]; intros acc.
  - unfold sumZ. simpl. lia.
  - cbn [fold_left]. rewrite IH, fmap_cons. unfold sumZ. cbn [foldr]. lia.
Qed.

Lemma sumZ_positive (l : list (string * Z)) :
  Forall (λ e, 0 < e.2) l → l ≠ [] → 0 < sumZ l.*2.
Proof.
  intros Hl Hne. unfold sumZ. induction Hl as [|e l He Hl IH]; [done|].
  rewrite fmap_cons. cbn [foldr]. destruct l as [|e' l]; [simpl; lia|].
  specialize (IH ltac:(done)). lia.
Qed.

Lemma sumZ_app (l1 l2 : list Z) : sumZ (l1 ++ l2) = sumZ l1 + sumZ l2.
Proof. unfold sumZ. induction l1 as [|x l1 IH]; simpl; lia. Qed.

Lemma sumZ_perm (l1 l2 : list Z) : l1 ≡ₚ l2 → sumZ l1 = sumZ l2.
Proof. unfold sumZ. induction 1; simpl; lia. Qed.

Lemma sumZ_nonneg (l : list (string * Z)) :
  Forall (λ e, 0 < e.2) l → 0 ≤ sumZ l.*2.
Proof.
  unfold sumZ. induction 1 as [|e l He _ IH]; [done|].
  rewrite fmap_cons. cbn [foldr]. lia.
Qed.

Lemma sumZ_member (l : list (string * Z)) (e : string * Z) :
  Forall (λ e, 0 < e.2) l → e ∈ l → e.2 ≤ sumZ l.*2.
Proof.
  intros Hl. unfold sumZ. induction Hl as [|e' l He' Hl IH]; intros He.
  - by apply elem_of_nil in He.
  - rewrite fmap_cons. cbn [foldr].
    assert (0 ≤ foldr Z.add 0 l.*2).
    { clear -Hl. induction Hl as [|x l Hx _ IH]; [done|].
      rewrite fmap_cons. cbn [foldr]. lia. }
    apply elem_of_cons in He as [->|He]; [lia|]. specialize (IH He). lia.
Qed.

Lemma increment_sum n acc : sumZ (increment n acc).*2 = sumZ acc.*2 + 1.
Proof.
  unfold sumZ. induction acc as [|[m k] acc IH]; [done|].
  cbn [increment]. case_decide; rewrite !fmap_cons; cbn [foldr snd]; lia.
Qed.

Lemma fold_increment_sum names acc :
  sumZ (fold_left (λ acc n, increment n acc) names acc).*2
  = sumZ acc.*2 + Z.of_nat (length names).
Proof.
  revert acc. induction names as [|n names IH]; intros acc; simpl; [lia|].
  rewrite IH, increment_sum. lia.
Qed.

(** The counts add up to the number of repositories that have a language. *)
Lemma countLanguages_total repos :
  sumZ (countLanguages repos).*2 = Z.of_nat (length (omap primaryLanguage repos)).
Proof. by rewrite countLanguages_names, fold_increment_sum. Qed.

Lemma omap_length_le {A B} (f : A → option B) (l : list A) :
  (length (omap f l) ≤ length l)%nat.
Proof.
  induction l as [|x l IH]; [done|]. cbn [omap list_omap].
  destruct (f x); simpl; lia.
Qed.

(** ** Rounding *)

Lemma allUpTo_spec p n x :
  allUpTo p n = true → 0 < x ≤ Z.of_nat n → p x = true.
Proof.
  induction n as [|n IH]; [lia|].
  cbn [allUpTo]. intros [Hp Hrest]%andb_prop Hx.
  destruct (decide (x = Z.of_nat (S n))) as [->|]; [done|].
  apply IH; [done|lia].
Qed.

(** Up to a total of 100, the largest a page of 100 repositories can give,
    the reported value is a nearest tenth of the exact share.  Checked on
    the doubles themselves, one pair of counts after the other. *)
Lemma toFixed1_nearest count total :
  0 < count ≤ total → total ≤ 100 →
  Z.abs (2 * total * toFixed1 count total - 2000 * count) ≤ total.
Proof.
  intros Hc Ht.
  assert (allUpTo (λ T, allUpTo (λ k, nearestTenth k T) (Z.to_nat T)) 100 = true)
    as Hall by (vm_compute; reflexivity).
  apply (allUpTo_spec _ _ total) in Hall; [|lia].
  apply (allUpTo_spec _ _ count) in Hall; [|lia].
  by apply Z.leb_le.
Qed.

(** An exact tie goes the way the double falls: 28.75 is reported as 28.7
    while 6.25 is reported as 6.3. *)
Example toFixed1_ties :
  toFixed1 23 80 = 287 ∧ toFixed1 41 80 = 512 ∧ toFixed1 51 80 = 637 ∧
  toFixed1 1 16 = 63 ∧ toFixed1 1 80 = 13.
Proof. by vm_compute. Qed.

Lemma toFixed1_sum (l : list (string * Z)) total :
  total ≤ 100 → Forall (λ e, 0 < e.2 ≤ total) l →
  Z.abs (2 * total * sumZ ((λ e, toFixed1 e.2 total) <$> l) - 2000 * sumZ l.*2)
  ≤ Z.of_nat (length l) * total.
Proof.
  intros Ht. unfold sumZ. induction 1 as [|e l He _ IH]; [simpl; lia|].
  rewrite !fmap_cons. cbn [foldr length].
  pose proof (toFixed1_nearest e.2 total He Ht). nia.
Qed.

Lemma topLanguages_positive counts :
  Forall (λ e, 0 < e.2) counts → Forall (λ e, 0 < e.2) (topLanguages counts).
Proof.
  intros H. unfold topLanguages. apply Forall_take. by rewrite ranked_perm.
Qed.

(** The kept counts add up to no more than the number of repositories. *)
Lemma topLanguages_total repos :
  sumZ (topLanguages (countLanguages repos)).*2 ≤ Z.of_nat (length repos).
Proof.
  pose proof (countLanguages_positive repos) as Hpos.
  rewrite <- ranked_perm in Hpos.
  assert (sumZ (stableSort byCountDesc (countLanguages repos)).*2
          = sumZ (countLanguages repos).*2) as Hsum.
  { apply sumZ_perm, fmap_Permutation, ranked_perm. }
  rewrite <- (take_drop 5 (stableSort byCountDesc (countLanguages repos))) in Hsum.
  rewrite fmap_app, sumZ_app, countLanguages_total in Hsum.
  pose proof (sumZ_nonneg _ (Forall_drop _ 5 _ Hpos)).
  pose proof (omap_length_le primaryLanguage repos).
  unfold topLanguages. lia.
Qed.

Lemma rankLanguages_shares counts :
  Forall (λ e, 0 < e.2) counts →
  rankLanguages counts
  = (λ e, {| name := e.1;
             percentage := showTenths (toFixed1 e.2 (sumZ (topLanguages counts).*2)) |})
    <$> topLanguages counts.
Proof.
  intros Hpos. unfold rankLanguages. cbv zeta.
  case_bool_decide as Hlen.
  - by destruct (topLanguages counts).
  - rewrite fold_left_sum, Z.add_0_l.
    pose proof (sumZ_positive _ (topLanguages_positive _ Hpos)) as Htotal.
    destruct (Z.ltb_spec 0 (sumZ (topLanguages counts).*2)) as [|Hle]; [done|].
    exfalso. assert (topLanguages counts ≠ []) as Hne.
    { intros E. by rewrite E in Hlen. }
    specialize (Htotal Hne). lia.
Qed.

Lemma example_shares :
  rankLanguages exampleCounts
  = [ {| name := "Go"; percentage := "38.5" |};
      {| name := "Python"; percentage := "23.1" |};
      {| name := "JS"; percentage := "23.1" |};
      {| name := "Rust"; percentage := "7.7" |};
      {| name := "C"; percentage := "7.7" |} ].
Proof. reflexivity. Qed.

(** For the counts Go 5, Python 3, JS 3, Rust 1, C 1, Zig 1 the reported
    percentages add up to 100.1, not to 100.0. *)
Lemma example_percentages_exceed_100 :
  ¬ (sumZ ((λ share, readTenths (percentage share))
             <$> fetchLanguageData exampleRepos) = 1000).
Proof. vm_compute. discriminate. Qed.

(** C4, amended.  Repositories are grouped by primary language, those
    without one (null or empty) being left out altogether; each language is
    listed once, in order of first appearance, with the number of its
    repositories.  The languages are ranked by descending count, languages
    with equal counts staying in order of first appearance, and the first
    five are kept.  Each kept language is reported with its share of the sum
    of the kept counts, as a percentage printed with one decimal.  For a page
    of at most 100 repositories the printed value is within 0.05 of the exact
    share, and the printed percentages add up to 100.0 within 0.05 per kept
    language.  For the counts Go 5, Python 3, JS 3, Rust 1, C 1, Zig 1 the
    result is Go 38.5, Python 23.1, JS 23.1, Rust 7.7, C 7.7: shares of 13,
    adding up to 100.1. *)
Theorem language_ranking (repos : list Repo) :
  (countLanguages repos).*1 = encounterOrder (omap primaryLanguage repos) ∧
  NoDup (countLanguages repos).*1 ∧
  (∀ n, n ≠ "" → countFor n (countLanguages repos) = reposIn n repos) ∧
  fetchLanguageData repos
    = fetchLanguageData (filter (λ r, is_Some (primaryLanguage r)) repos) ∧
  stableSort byCountDesc (countLanguages repos) ≡ₚ countLanguages repos ∧
  StronglySorted (λ a b, b.2 ≤ a.2) (stableSort byCountDesc (countLanguages repos)) ∧
  (∀ k, filter (λ e, e.2 = k) (stableSort byCountDesc (countLanguages repos))
        = filter (λ e, e.2 = k) (countLanguages repos)) ∧
  topLanguages (countLanguages repos)
    = take 5 (stableSort byCountDesc (countLanguages repos)) ∧
  fetchLanguageData repos
    = (λ e, {| name := e.1;
               percentage :=
                 showTenths
                   (toFixed1 e.2 (sumZ (topLanguages (countLanguages repos)).*2)) |})
      <$> topLanguages (countLanguages repos) ∧
  Forall (λ e, 0 < e.2) (topLanguages (countLanguages repos)) ∧
  ((length repos ≤ 100)%nat →
   Forall (λ e, Z.abs (2 * sumZ (topLanguages (countLanguages repos)).*2
                         * toFixed1 e.2 (sumZ (topLanguages (countLanguages repos)).*2)
                       - 2000 * e.2)
                ≤ sumZ (topLanguages (countLanguages repos)).*2)
          (topLanguages (countLanguages repos)) ∧
   (topLanguages (countLanguages repos) = [] ∨
    Z.abs (2 * sumZ ((λ e, toFixed1 e.2 (sumZ (topLanguages (countLanguages repos)).*2))
                       <$> topLanguages (countLanguages repos))
           - 2000)
    ≤ Z.of_nat (length (topLanguages (countLanguages repos))))) ∧
  (countLanguages repos = exampleCounts →
   fetchLanguageData repos
   = [ {| name := "Go"; percentage := "38.5" |};
       {| name := "Python"; percentage := "23.1" |};
       {| name := "JS"; percentage := "23.1" |};
       {| name := "Rust"; percentage := "7.7" |};
       {| name := "C"; percentage := "7.7" |} ]
   ∧ topLanguages (countLanguages repos)
     = [("Go", 5); ("Python", 3); ("JS", 3); ("Rust", 1); ("C", 1)]
   ∧ sumZ (topLanguages (countLanguages repos)).*2 = 13
   ∧ sumZ ((λ share, readTenths (percentage share)) <$> fetchLanguageData repos)
     = 1001).
Proof.
  pose proof (countLanguages_positive repos) as Hpos.
  pose proof (topLanguages_positive _ Hpos) as Hkept.
  split; [apply countLanguages_keys|].
  split; [rewrite countLanguages_keys; apply encounterOrder_NoDup|].
  split; [intros n; apply countLanguages_countFor|].
  split.
  { unfold fetchLanguageData.
    by rewrite !countLanguages_names, omap_primaryLanguage_filter. }
  split; [apply ranked_perm|].
  split; [apply ranked_sorted|].
  split; [intros k; apply ranked_stable|].
  split; [done|].
  split; [by apply rankLanguages_shares|].
  split; [done|].
  split.
  { intros Hlen.
    pose proof (topLanguages_total repos) as Htotal.
    assert (Forall (λ e, 0 < e.2 ≤ sumZ (topLanguages (countLanguages repos)).*2)
              (topLanguages (countLanguages repos))) as Hin.
    { apply Forall_forall. intros e He. split.
      - by apply (proj1 (Forall_forall _ _) Hkept).
      - by apply sumZ_member. }
    split.
    - eapply Forall_impl; [exact Hin|]. intros e He. simpl.
      apply toFixed1_nearest; [done|lia].
    - destruct (decide (topLanguages (countLanguages repos) = [])) as [E|Hne];
        [by left|right].
      pose proof (sumZ_positive _ Hkept Hne) as Ht.
      assert (sumZ (topLanguages (countLanguages repos)).*2 ≤ 100) as H100 by lia.
      pose proof (toFixed1_sum _ _ H100 Hin) as Hsum.
      apply Z.abs_le in Hsum. apply Z.abs_le. nia. }
  unfold fetchLanguageData. intros ->. by vm_compute.
Qed.

Lemma language_ranking_witness :
  (fetchLanguageData exampleRepos
   = [ {| name := "Go"; percentage := "38.5" |};
       {| name := "Python"; percentage := "23.1" |};
       {| name := "JS"; percentage := "23.1" |};
       {| name := "Rust"; percentage := "7.7" |};
       {| name := "C"; percentage := "7.7" |} ]
   ∧ topLanguages (countLanguages exampleRepos)
     = [("Go", 5); ("Python", 3); ("JS", 3); ("Rust", 1); ("C", 1)]
   ∧ sumZ (topLanguages (countLanguages exampleRepos)).*2 = 13
   ∧ sumZ ((λ share, readTenths (percentage share))
             <$> fetchLanguageData exampleRepos) = 1001)
  ∧ Z.abs (2 * sumZ ((λ e, toFixed1 e.2 13) <$> topLanguages exampleCounts) - 2000)
    ≤ 5.
Proof.
  pose proof (language_ranking exampleRepos) as (_ & _ & _ & _ & _ & _ & _ & _ & _ & _
                                                 & Hnear & Hex).
  split; [by apply Hex|].
  destruct Hnear as [_ [Hnil|Hsum]]; [vm_compute; lia|discriminate Hnil|exact Hsum].
Defined.

(** * Further properties of [calculateStreak] *)

(** ** The order of the input *)

(** X1. When no two entries carry the same date, the order in which the
    entries are supplied does not matter. *)
Theorem calculateStreak_order_irrelevant (c : Clock)
    (days days' : list ContributionDay) :
  NoDup (date <$> days) → days ≡ₚ days' →
  calculateStreak c days = calculateStreak c days'.
Proof.
  intros Hnd Hp. unfold calculateStreak.
  rewrite (sortedDays_perm_invariant days days') by done.
  by rewrite (Permutation_length Hp).
Qed.

Lemma calculateStreak_order_irrelevant_witness :
  calculateStreak exampleClock fiveDays
  = calculateStreak exampleClock (reverse fiveDays).
Proof.
  apply (calculateStreak_order_irrelevant exampleClock fiveDays (reverse fiveDays)).
  - apply (bool_decide_unpack _). by vm_compute.
  - symmetry. apply reverse_Permutation.
Defined.

(** With two entries for one date the outcome follows the order given. *)
Example duplicate_dates_order_matters :
  max (calculateStreak exampleClock duplicateDays) = 1 ∧
  max (calculateStreak exampleClock [daysAgo 1 0; daysAgo 1 1; daysAgo 0 1]) = 2.
Proof. by vm_compute. Qed.

(** ** The time of day *)

Lemma daysDiff_same_day c c' day :
  utcOffset c = utcOffset c' →
  (now c + utcOffset c) / MS_PER_DAY = (now c' + utcOffset c') / MS_PER_DAY →
  daysDiff c day = daysDiff c' day.
Proof.
  intros Hoff Hday. unfold daysDiff, today, setHours0. by rewrite Hday, Hoff.
Qed.

Lemma scanBack_ext c c' l cur :
  Forall (λ d, daysDiff c d = daysDiff c' d) l →
  scanBack c l cur = scanBack c' l cur.
Proof.
  intros Hl. revert cur. induction Hl as [|d l Hd _ IH]; intros cur; simpl; [done|].
  by rewrite Hd, !IH.
Qed.

(** X2. The result depends on the clock only through the local calendar
    day: two runs in the same time zone on the same local day agree. *)
Theorem calculateStreak_same_local_day (c c' : Clock)
    (days : list ContributionDay) :
  utcOffset c = utcOffset c' →
  (now c + utcOffset c) / MS_PER_DAY = (now c' + utcOffset c') / MS_PER_DAY →
  calculateStreak c days = calculateStreak c' days.
Proof.
  intros Hoff Hday.
  pose proof (calculateStreak_current c days) as Hc.
  pose proof (calculateStreak_current c' days) as Hc'.
  pose proof (calculateStreak_max c days) as Hm.
  pose proof (calculateStreak_max c' days) as Hm'.
  rewrite (scanBack_ext c c') in Hc
    by (apply Forall_forall; intros; by apply daysDiff_same_day).
  destruct (calculateStreak c days), (calculateStreak c' days).
  simpl in *. congruence.
Qed.

Lemma calculateStreak_same_local_day_witness :
  calculateStreak exampleClock historicalDays
  = calculateStreak lateClock historicalDays.
Proof.
  apply (calculateStreak_same_local_day exampleClock lateClock historicalDays);
    reflexivity.
Defined.

(** ** Unbroken and stale streaks *)

Lemma scanBack_unbroken c l cur :
  Forall active l →
  (∀ i d, l !! i = Some d → daysDiff c d ≤ cur + Z.of_nat i + 1) →
  scanBack c l cur = cur + Z.of_nat (length l).
Proof.
  intros Hact. revert cur. induction Hact as [|d l Hd _ IH]; intros cur Hoff.
  - simpl. lia.
  - simpl scanBack. unfold active in Hd.
    destruct (Z.ltb_spec 0 (contributionCount d)); [|lia].
    pose proof (Hoff 0%nat d eq_refl) as H0.
    destruct (Z.leb_spec (daysDiff c d) (cur + 1)); [|lia].
    rewrite IH.
    + simpl length. lia.
    + intros i d' Hi. specialize (Hoff (S i) d' Hi). lia.
Qed.

(** X3. When every entry has a positive count and, counting back from the
    most recent one, the i-th entry (from 0) is at most i + 1 days old, the
    current and the longest streak both equal the number of entries. *)
Theorem unbroken_streak_counts_every_day (c : Clock)
    (days : list ContributionDay) :
  Forall active days →
  (∀ i d, reverse (sortedDays days) !! i = Some d →
          daysDiff c d ≤ Z.of_nat i + 1) →
  calculateStreak c days
  = {| current := Z.of_nat (length days); max := Z.of_nat (length days) |}.
Proof.
  intros Hact Hoff.
  pose proof (calculateStreak_current c days) as Hc.
  pose proof (calculateStreak_max c days) as Hm.
  rewrite scanBack_unbroken in Hc.
  - rewrite length_reverse, (stableSort_length byDate) in Hc.
    rewrite <- (app_nil_r (sortedDays days)), maxLoop_active in Hm.
    + rewrite (stableSort_length byDate) in Hm. simpl in Hm.
      destruct (calculateStreak c days). simpl in *. f_equal; lia.
    + lia.
    + by rewrite sortedDays_perm.
  - apply Forall_reverse. by rewrite sortedDays_perm.
  - intros i d Hi. specialize (Hoff i d Hi). lia.
Qed.

Lemma unbroken_streak_counts_every_day_witness :
  calculateStreak exampleClock fiveDays = {| current := 5; max := 5 |}.
Proof.
  apply (unbroken_streak_counts_every_day exampleClock fiveDays).
  - by_evaluation.
  - intros [|[|[|[|[|i]]]]] d Hd; vm_compute in Hd;
      [injection Hd as <-; by vm_compute..|discriminate].
Defined.

Lemma scanBack_stale c l :
  Forall (λ d, active d → 2 ≤ daysDiff c d) l → scanBack c l 0 = 0.
Proof.
  induction 1 as [|d l Hd _ IH]; simpl; [done|]. unfold active in Hd.
  destruct (Z.ltb_spec 0 (contributionCount d)).
  - destruct (Z.leb_spec (daysDiff c d) (0 + 1)); [|done]. specialize (Hd H). lia.
  - by destruct (daysDiff c d <=? 1).
Qed.

(** X4. When the most recent entry with a positive count is two or more
    days old, the current streak is zero, whatever came before. *)
Theorem stale_streak_is_zero (c : Clock) (days : list ContributionDay) :
  Forall (λ d, active d → 2 ≤ daysDiff c d) days →
  current (calculateStreak c days) = 0.
Proof.
  intros Hstale. rewrite calculateStreak_current. apply scanBack_stale.
  apply Forall_reverse. by rewrite sortedDays_perm.
Qed.

Lemma stale_streak_is_zero_witness :
  current (calculateStreak exampleClock staleDays) = 0.
Proof.
  apply (stale_streak_is_zero exampleClock staleDays).
  repeat constructor; vm_compute; intros; discriminate.
Defined.

(** * Further properties of the language ranking *)

Lemma fetchLanguageData_names repos :
  name <$> fetchLanguageData repos = (topLanguages (countLanguages repos)).*1.
Proof.
  unfold fetchLanguageData.
  rewrite rankLanguages_shares by apply countLanguages_positive.
  rewrite <- list_fmap_compose. by apply list_fmap_ext.
Qed.

Lemma topLanguages_kept counts e : e ∈ topLanguages counts → e ∈ counts.
Proof.
  unfold topLanguages. intros He. apply subseteq_take in He.
  by rewrite ranked_perm in He.
Qed.

Lemma topLanguages_NoDup counts : NoDup counts.*1 → NoDup (topLanguages counts).*1.
Proof.
  intros Hnd. unfold topLanguages. rewrite fmap_take.
  eapply sublist_NoDup; [|apply sublist_take]. by rewrite ranked_perm.
Qed.

Lemma topLanguages_nil counts : topLanguages counts = [] ↔ counts = [].
Proof.
  unfold topLanguages. split; [|by intros ->].
  intros Hnil. apply Permutation_nil_r. rewrite <- (ranked_perm counts).
  by destruct (stableSort byCountDesc counts).
Qed.

Lemma topLanguages_all counts :
  (length counts ≤ 5)%nat → topLanguages counts ≡ₚ counts.
Proof.
  intros Hlen. unfold topLanguages.
  rewrite take_ge by (by rewrite (stableSort_length byCountDesc)).
  apply ranked_perm.
Qed.

(** X5. At most five languages are reported and no language twice; every
    reported name is the non-empty language of some repository; nothing is
    reported exactly when no repository has a language; and when the
    repositories use five languages or fewer, each of them is reported. *)
Theorem language_list_shape (repos : list Repo) :
  (length (fetchLanguageData repos) ≤ 5)%nat ∧
  NoDup (name <$> fetchLanguageData repos) ∧
  (∀ n, n ∈ name <$> fetchLanguageData repos →
        n ≠ "" ∧ ∃ r, r ∈ repos ∧ language r = Some n) ∧
  (fetchLanguageData repos = [] ↔
   Forall (λ r, language r = None ∨ language r = Some "") repos) ∧
  ((length (encounterOrder (omap primaryLanguage repos)) ≤ 5)%nat →
   ∀ r n, r ∈ repos → language r = Some n → n ≠ "" →
          n ∈ name <$> fetchLanguageData repos).
Proof.
  pose proof (countLanguages_keys repos) as Hkeys.
  assert (NoDup (countLanguages repos).*1) as Hnd
    by (rewrite Hkeys; apply encounterOrder_NoDup).
  assert (∀ r n, primaryLanguage r = Some n ↔ language r = Some n ∧ n ≠ "") as Hprim.
  { intros r n. unfold primaryLanguage. destruct (language r) as [m|].
    - case_decide as Hm; split.
      + done.
      + intros [[= <-] Hne]. done.
      + intros [= <-]. done.
      + intros [[= <-] _]. done.
    - split; [done|]. by intros [[=] _]. }
  assert (∀ n (l : list string), n ∈ encounterOrder l ↔ n ∈ l) as Heo.
  { intros n l. induction l as [|m l IH]; [done|]. simpl.
    rewrite !elem_of_cons, list_elem_of_filter, IH.
    destruct (decide (n = m)); tauto. }
  assert (∀ n, n ∈ (countLanguages repos).*1 ↔
               ∃ r, r ∈ repos ∧ language r = Some n ∧ n ≠ "") as Hmem.
  { intros n. rewrite Hkeys, Heo, list_elem_of_omap. split.
    - intros (r & Hr & Hl). apply Hprim in Hl as [Hl Hne]. eauto.
    - intros (r & Hr & Hl & Hne). exists r. split; [done|]. by apply Hprim. }
  split; [|split; [|split; [|split]]].
  - rewrite <- (length_fmap name), fetchLanguageData_names, length_fmap.
    unfold topLanguages. rewrite length_take. lia.
  - rewrite fetchLanguageData_names. by apply topLanguages_NoDup.
  - intros n. rewrite fetchLanguageData_names. intros Hn.
    apply list_elem_of_fmap in Hn as (e & -> & He).
    apply topLanguages_kept in He.
    destruct (proj1 (Hmem e.1)) as (r & Hr & Hl & Hne);
      [by apply list_elem_of_fmap_2|]. eauto.
  - transitivity (countLanguages repos = []).
    + transitivity (topLanguages (countLanguages repos) = []);
        [|apply topLanguages_nil].
      split.
      * intros E. apply (f_equal (fmap name)) in E.
        rewrite fetchLanguageData_names in E. by apply fmap_nil_inv in E.
      * intros E. apply (fmap_nil_inv name).
        by rewrite fetchLanguageData_names, E.
    + split.
      * intros E. apply Forall_forall. intros r Hr.
        destruct (language r) as [n|] eqn:Hl; [|by left]. right. f_equal.
        destruct (decide (n = "")) as [|Hne]; [done|]. exfalso.
        assert (n ∈ (countLanguages repos).*1) as Hin by (apply Hmem; eauto).
        rewrite E in Hin. by apply elem_of_nil in Hin.
      * intros Hall. apply fmap_nil_inv with (f := fst).
        apply elem_of_nil_inv. intros n Hn.
        apply Hmem in Hn as (r & Hr & Hl & Hne).
        rewrite Forall_forall in Hall. destruct (Hall r Hr); congruence.
  - intros Hlen r n Hr Hl Hne. rewrite fetchLanguageData_names.
    rewrite topLanguages_all by (by rewrite <- (length_fmap fst), Hkeys).
    apply Hmem. eauto.
Qed.

Lemma language_list_shape_witness :
  "Python" ∈ name <$> fetchLanguageData smallRepos.
Proof.
  pose proof (language_list_shape smallRepos) as (_ & _ & _ & _ & H).
  apply (H ltac:(vm_compute; lia) (repoIn "Python") "Python");
    [|reflexivity|done].
  apply elem_of_cons; right. apply elem_of_cons; by left.
Defined.

(** ** The reported shares *)

Lemma toFixed1_mono c1 c2 total :
  0 < c1 → c1 ≤ c2 → c2 ≤ total → total ≤ 100 →
  toFixed1 c1 total ≤ toFixed1 c2 total.
Proof.
  intros H1 Hc H2 Ht.
  destruct (decide (c1 = c2)) as [->|Hne]; [done|].
  pose proof (toFixed1_nearest c1 total ltac:(lia) Ht) as N1.
  pose proof (toFixed1_nearest c2 total ltac:(lia) Ht) as N2.
  apply Z.abs_le in N1, N2. nia.
Qed.

Lemma toFixed1_range c total :
  0 < c ≤ total → total ≤ 100 → 0 ≤ toFixed1 c total ≤ 1000.
Proof.
  intros Hc Ht.
  pose proof (toFixed1_nearest c total Hc Ht) as N. apply Z.abs_le in N. nia.
Qed.

Lemma sumZ_le_head (l : list (string * Z)) (e : string * Z) :
  Forall (λ e', e'.2 ≤ e.2) l → sumZ l.*2 ≤ Z.of_nat (length l) * e.2.
Proof.
  unfold sumZ. induction 1 as [|e' l He' _ IH]; [simpl; lia|].
  rewrite fmap_cons. cbn [foldr length]. lia.
Qed.

Lemma topLanguages_sorted counts :
  StronglySorted (λ a b, b.2 ≤ a.2) (topLanguages counts).
Proof.
  unfold topLanguages.
  pose proof (ranked_sorted counts) as Hs.
  rewrite <- (take_drop 5 (stableSort byCountDesc counts)) in Hs.
  by apply StronglySorted_app_1_l in Hs.
Qed.

Lemma toFixed1_sorted (l : list (string * Z)) total :
  total ≤ 100 → Forall (λ e, 0 < e.2 ≤ total) l →
  StronglySorted (λ a b, b.2 ≤ a.2) l →
  StronglySorted (λ a b, b ≤ a) ((λ e, toFixed1 e.2 total) <$> l).
Proof.
  intros Ht Hin. induction 1 as [|e rest _ IH Hall]; [constructor|].
  apply Forall_cons in Hin as [He Hrest].
  rewrite fmap_cons. constructor; [by apply IH|].
  apply Forall_fmap, Forall_forall. intros e' He'. simpl.
  rewrite Forall_forall in Hall, Hrest.
  apply toFixed1_mono; [apply Hrest, He' | apply Hall, He' | apply He | done].
Qed.

(** X6. For a page of at most 100 repositories, the reported percentages
    are the one-decimal numerals of numbers of tenths that lie between 0 and
    100.0, never increase down the list, and start at 20.0 or more. *)
Theorem language_shares_descend (repos : list Repo) :
  (length repos ≤ 100)%nat →
  ∃ tenths,
    percentage <$> fetchLanguageData repos = showTenths <$> tenths ∧
    Forall (λ t, 0 ≤ t ≤ 1000) tenths ∧
    StronglySorted (λ a b, b ≤ a) tenths ∧
    match tenths with
    | [] => fetchLanguageData repos = []
    | t :: _ => 200 ≤ t
    end.
Proof.
  intros Hpage.
  pose proof (countLanguages_positive repos) as Hpos.
  pose proof (topLanguages_positive _ Hpos) as Hkept.
  pose proof (topLanguages_sorted (countLanguages repos)) as Hsorted.
  pose proof (topLanguages_total repos) as Htotal.
  assert ((length (topLanguages (countLanguages repos)) ≤ 5)%nat) as Hlen.
  { unfold topLanguages. rewrite length_take. lia. }
  unfold fetchLanguageData. rewrite rankLanguages_shares by done.
  set (kept := topLanguages (countLanguages repos)) in *.
  set (total := sumZ kept.*2) in *.
  assert (total ≤ 100) as H100 by lia.
  assert (Forall (λ e, 0 < e.2 ≤ total) kept) as Hin.
  { apply Forall_forall. intros e He. split.
    - by apply (proj1 (Forall_forall _ _) Hkept).
    - by apply sumZ_member. }
  exists ((λ e, toFixed1 e.2 total) <$> kept).
  split; [|split; [|split]].
  - rewrite <- !list_fmap_compose. by apply list_fmap_ext.
  - apply Forall_fmap. eapply Forall_impl; [exact Hin|].
    intros e He. simpl. by apply toFixed1_range.
  - by apply toFixed1_sorted.
  - destruct kept as [|e rest] eqn:Ekept; [done|]. rewrite fmap_cons.
    apply Forall_cons in Hin as [He _].
    assert (total ≤ 5 * e.2) as Hbound.
    { apply StronglySorted_cons in Hsorted as [Hall _].
      pose proof (sumZ_le_head (e :: rest) e) as Hsum.
      fold total in Hsum. simpl length in Hsum, Hlen.
      etransitivity; [apply Hsum; by constructor|]. nia. }
    pose proof (toFixed1_nearest e.2 total He H100) as N.
    apply Z.abs_le in N. nia.
Qed.

Lemma language_shares_descend_witness :
  ∃ tenths,
    percentage <$> fetchLanguageData exampleRepos = showTenths <$> tenths ∧
    Forall (λ t, 0 ≤ t ≤ 1000) tenths ∧
    StronglySorted (λ a b, b ≤ a) tenths ∧
    match tenths with
    | [] => fetchLanguageData exampleRepos = []
    | t :: _ => 200 ≤ t
    end.
Proof. apply (language_shares_descend exampleRepos). vm_compute. lia. Defined.

(** * Further properties of the summary *)

Section SummaryPipeline.
Import Summary.

Lemma orElse_not_nullish v d : isNullish d = false → isNullish (orElse v d) = false.
Proof. unfold orElse. by destruct v as [| |[]| | | |]; simpl; try case_match. Qed.

Lemma orElse_number n : orElse (VNum n) (VNum 0) = VNum n.
Proof.
  unfold orElse. simpl. destruct (Z.eqb_spec n 0) as [->|]; done.
Qed.

(** X7. A summary that has been built holds neither [undefined] nor [null]
    in any of its sub-result fields, and its streak can be read for
    [current] and [max] without an error. *)
Theorem summary_has_no_missing_field (c : Clock)
    (userName userStats repoStats contributionStats languageStats : value)
    (s : StatsSummary) :
  buildSummary c userName userStats repoStats contributionStats languageStats = Ok s →
  Forall (λ v, isNullish v = false) (summaryFields s) ∧
  (∃ v, getProp (contributionStreak s) "current" = Ok v) ∧
  (∃ v, getProp (contributionStreak s) "max" = Ok v).
Proof.
  unfold buildSummary.
  repeat (match goal with
          | |- context [getProp ?v ?p] => destruct (getProp v p); simpl; [|done]
          end).
  intros [= <-]. unfold summaryFields. simpl.
  split; [|split; apply getProp_present; by apply orElse_not_nullish].
  repeat (constructor; [by apply orElse_not_nullish|]). constructor.
Qed.

Lemma summary_has_no_missing_field_witness :
  ∃ s, buildSummary exampleClock (VStr "octocat") exampleUser exampleRepoStats
         (VObj []) VUndefined = Ok s ∧
       Forall (λ v, isNullish v = false) (summaryFields s).
Proof.
  eexists. split; [reflexivity|].
  eapply (summary_has_no_missing_field exampleClock (VStr "octocat") exampleUser
            exampleRepoStats (VObj []) VUndefined). reflexivity.
Defined.

End SummaryPipeline.

(** X8. Building the summary from the objects the fetch functions return
    never throws and hands every one of their values on unchanged: a total of
    zero stays zero, and an empty day list or language list stays an empty
    array. *)
Theorem summary_passes_values_on (c : Clock) (dateString : Z → string)
    (userName userStats : Summary.value) (repos : RepoStats)
    (contributions : ContributionStats) (shares : list LanguageShare) :
  Summary.isNullish userStats = false →
  ∃ s, Summary.buildSummary c userName userStats (encodeRepoStats repos)
         (encodeContributionStats dateString contributions)
         (encodeLanguages shares) = Ok s ∧
       Summary.totalStars s = Summary.VNum (totalStars repos) ∧
       Summary.totalForks s = Summary.VNum (totalForks repos) ∧
       Summary.totalIssues s = Summary.VNum (totalIssues contributions) ∧
       Summary.totalPRs s = Summary.VNum (totalPRs contributions) ∧
       Summary.totalCommits s = Summary.VNum (totalCommits contributions) ∧
       Summary.contributionStreak s = encodeStreak (streak contributions) ∧
       Summary.contributionDays s
       = Summary.VArr (encodeDay dateString <$> contributionDays contributions) ∧
       Summary.languages s = encodeLanguages shares.
Proof.
  intros Hus. unfold Summary.buildSummary.
  destruct (getProp_present userStats "followers" Hus) as [? ->].
  destruct (getProp_present userStats "following" Hus) as [? ->].
  destruct (getProp_present userStats "public_repos" Hus) as [? ->].
  simpl. eexists. split; [reflexivity|]. simpl.
  by rewrite !orElse_number.
Qed.

Lemma summary_passes_values_on_witness :
  ∃ s, Summary.buildSummary exampleClock (Summary.VStr "octocat") exampleUser
         (encodeRepoStats {| totalStars := 0; totalForks := 2 |})
         (encodeContributionStats (λ _, "2024-06-15")
            {| totalCommits := 0; totalIssues := 4; totalPRs := 12;
               streak := {| current := 1; max := 1 |};
               contributionDays := [] |})
         (encodeLanguages []) = Ok s ∧
       Summary.totalStars s = Summary.VNum 0 ∧
       Summary.totalCommits s = Summary.VNum 0 ∧
       Summary.contributionDays s = Summary.VArr [] ∧
       Summary.languages s = Summary.VArr [].
Proof.
  destruct (summary_passes_values_on exampleClock (λ _, "2024-06-15")
              (Summary.VStr "octocat") exampleUser
              {| totalStars := 0; totalForks := 2 |}
              {| totalCommits := 0; totalIssues := 4; totalPRs := 12;
                 streak := {| current := 1; max := 1 |};
                 contributionDays := [] |} [] eq_refl)
    as (s & Hs & Hstars & _ & _ & _ & Hcommits & _ & Hdays & Hlangs).
  exists s. by repeat split.
Defined.

(** * [fetchWithRetry] *)

Lemma backoff_requests i k : requests (backoff i k ++ [Request]) = S k.
Proof. revert i. induction k as [|k IH]; intros i; simpl; [done|]. by rewrite IH. Qed.

Lemma backoff_slept i k :
  slept (backoff i k ++ [Request])
  = 1000 * (2 ^ Z.of_nat (i + k) - 2 ^ Z.of_nat i).
Proof.
  revert i. induction k as [|k IH]; intros i; simpl.
  - rewrite Nat.add_0_r. lia.
  - rewrite IH. replace (i + S k)%nat with (S i + k)%nat by lia.
    rewrite (Nat2Z.inj_succ i), Z.pow_succ_r by lia. lia.
Qed.

Lemma retryLoop_success {B} (net : nat → Attempt B) retries r k i fuel :
  (i + k < retries)%nat → (retries ≤ i + fuel)%nat →
  (∀ j, (i ≤ j < i + k)%nat → ∃ e, tryOnce (net j) = inl e) →
  tryOnce (net (i + k)%nat) = inr r →
  retryLoop net retries fuel i = (Returned r, backoff i k ++ [Request]).
Proof.
  revert i fuel. induction k as [|k IH]; intros i fuel Hlt Hfuel Hfail Hok.
  - destruct fuel as [|fuel]; [lia|]. simpl.
    rewrite bool_decide_eq_true_2 by lia.
    rewrite Nat.add_0_r in Hok. by rewrite Hok.
  - destruct fuel as [|fuel]; [lia|]. simpl.
    rewrite bool_decide_eq_true_2 by lia.
    destruct (Hfail i ltac:(lia)) as [e ->].
    rewrite bool_decide_eq_false_2 by lia.
    rewrite (IH (S i) fuel); [done|lia|lia| |].
    + intros j Hj. apply Hfail. lia.
    + by replace (S i + k)%nat with (i + S k)%nat by lia.
Qed.

Lemma retryLoop_exhausted {B} (net : nat → Attempt B) retries e k i fuel :
  (i + k = retries - 1)%nat → (0 < retries)%nat → (retries ≤ i + fuel)%nat →
  (∀ j, (i ≤ j < i + k)%nat → ∃ e', tryOnce (net j) = inl e') →
  tryOnce (net (i + k)%nat) = inl e →
  retryLoop net retries fuel i = (Threw e, backoff i k ++ [Request]).
Proof.
  revert i fuel. induction k as [|k IH]; intros i fuel Hlast Hpos Hfuel Hfail Herr.
  - destruct fuel as [|fuel]; [lia|]. simpl.
    rewrite bool_decide_eq_true_2 by lia.
    rewrite Nat.add_0_r in Herr, Hlast. rewrite Herr.
    by rewrite bool_decide_eq_true_2 by lia.
  - destruct fuel as [|fuel]; [lia|]. simpl.
    rewrite bool_decide_eq_true_2 by lia.
    destruct (Hfail i ltac:(lia)) as [e' ->].
    rewrite bool_decide_eq_false_2 by lia.
    rewrite (IH (S i) fuel); [done|lia|lia|lia| |].
    + intros j Hj. apply Hfail. lia.
    + by replace (S i + k)%nat with (i + S k)%nat by lia.
Qed.

(** X9. When the first [k] attempts fail and attempt [k], still within
    [retries], passes both checks, its response is returned: [k + 1]
    requests have been made and the waits before the retries were 1000,
    2000, 4000, ... ms, [1000 * (2^k - 1)] ms in all. *)
Theorem fetchWithRetry_first_success {B} (net : nat → Attempt B)
    (retries k : nat) (r : Response B) :
  (k < retries)%nat →
  (∀ j, (j < k)%nat → ∃ e, tryOnce (net j) = inl e) →
  tryOnce (net k) = inr r →
  fetchWithRetry net retries = (Returned r, backoff 0 k ++ [Request]) ∧
  requests (backoff 0 k ++ [Request]) = S k ∧
  slept (backoff 0 k ++ [Request]) = 1000 * (2 ^ Z.of_nat k - 1).
Proof.
  intros Hk Hfail Hok. split; [|split].
  - apply retryLoop_success; [lia|lia| |done]. intros j Hj. apply Hfail. lia.
  - apply backoff_requests.
  - rewrite backoff_slept. simpl. f_equal.
Qed.

Lemma fetchWithRetry_first_success_witness :
  fetchWithRetry flakyNet 3
  = (Returned {| status := 200; ok := true; statusText := "OK";
                 rateLimitReset := None; json := 42 |},
     [Request; Sleep 1000; Request; Sleep 2000; Request]).
Proof.
  apply (fetchWithRetry_first_success flakyNet 3 2); [lia| |reflexivity].
  intros [|[|j]] Hj; [by eexists..|lia].
Defined.

(** X10. When all [retries] attempts fail, whatever the failures are, the
    error thrown is that of the last attempt; the function has made
    [retries] requests and has not waited after the last one. *)
Theorem fetchWithRetry_gives_up {B} (net : nat → Attempt B)
    (retries : nat) (e : FetchError) :
  (0 < retries)%nat →
  (∀ j, (j < retries - 1)%nat → ∃ e', tryOnce (net j) = inl e') →
  tryOnce (net (retries - 1)%nat) = inl e →
  fetchWithRetry (B := B) net retries
  = (Threw e, backoff 0 (retries - 1) ++ [Request]) ∧
  requests (backoff 0 (retries - 1) ++ [Request]) = retries ∧
  slept (backoff 0 (retries - 1) ++ [Request])
  = 1000 * (2 ^ Z.of_nat (retries - 1) - 1).
Proof.
  intros Hpos Hfail Herr. split; [|split].
  - apply retryLoop_exhausted; [lia|lia|lia| |done].
    intros j Hj. apply Hfail. lia.
  - rewrite backoff_requests. lia.
  - rewrite backoff_slept. simpl. f_equal.
Qed.

Lemma fetchWithRetry_gives_up_witness :
  fetchWithRetry limitedNet 3
  = (Threw (RateLimitExceeded "1718460000"),
     [Request; Sleep 1000; Request; Sleep 2000; Request]).
Proof.
  apply (fetchWithRetry_gives_up limitedNet 3); [lia| |reflexivity].
  intros j _. by eexists.
Defined.

Lemma retryLoop_bounds {B} (net : nat → Attempt B) retries fuel i :
  (retries ≤ i + fuel)%nat →
  (requests (retryLoop net retries fuel i).2 ≤ retries - i)%nat ∧
  0 ≤ slept (retryLoop net retries fuel i).2 ∧
  2 ^ Z.of_nat i * 1000 + slept (retryLoop net retries fuel i).2
    ≤ 1000 * 2 ^ Z.of_nat (Nat.max i (retries - 1)) ∧
  (∀ r, (retryLoop net retries fuel i).1 = Returned r →
        ∃ j, (i ≤ j < retries)%nat ∧ tryOnce (net j) = inr r) ∧
  ((retryLoop net retries fuel i).1 = ReturnedUndefined → (retries ≤ i)%nat).
Proof.
  revert i. induction fuel as [|fuel IH]; intros i Hfuel.
  - simpl. repeat split; try lia; try done.
    assert (0 < 2 ^ Z.of_nat i) by (apply Z.pow_pos_nonneg; lia).
    assert (2 ^ Z.of_nat i ≤ 2 ^ Z.of_nat (Nat.max i (retries - 1)))
      by (apply Z.pow_le_mono_r; lia).
    lia.
  - simpl.
    assert (0 < 2 ^ Z.of_nat i) as Hpow by (apply Z.pow_pos_nonneg; lia).
    assert (2 ^ Z.of_nat i ≤ 2 ^ Z.of_nat (Nat.max i (retries - 1))) as Hmono
      by (apply Z.pow_le_mono_r; lia).
    case_bool_decide as Hi; [|simpl; repeat split; try lia; done].
    destruct (tryOnce (net i)) as [e|r] eqn:Htry.
    + case_bool_decide as Hlast; simpl.
      * repeat split; try lia; done.
      * destruct (IH (S i) ltac:(lia)) as (Hreq & Hs0 & Hs & Hret & Hundef).
        replace (Nat.max (S i) (retries - 1)) with (Nat.max i (retries - 1)) in Hs by lia.
        rewrite (Nat2Z.inj_succ i), Z.pow_succ_r in Hs by lia.
        repeat split; try lia.
        -- intros r Hr. destruct (Hret r Hr) as (j & Hj & Hok). exists j. split; [lia|done].
        -- intros Hu. specialize (Hundef Hu). lia.
    + simpl. repeat split; try lia; try done.
      intros r' [= <-]. exists i. split; [lia|done].
Qed.

(** X11. Whatever the network does, at most [retries] requests are made
    and the waiting adds up to at most [1000 * (2^(retries-1) - 1)] ms; a
    response that is returned is one whose [ok] flag is set and that is not a
    403 carrying a rate-limit header; and nothing at all ([undefined]) is
    returned exactly when [retries] is zero. *)
Theorem fetchWithRetry_bounds {B} (net : nat → Attempt B) (retries : nat) :
  (requests (fetchWithRetry net retries).2 ≤ retries)%nat ∧
  0 ≤ slept (fetchWithRetry net retries).2
    ≤ 1000 * (2 ^ Z.of_nat (retries - 1) - 1) ∧
  (∀ r, (fetchWithRetry net retries).1 = Returned r →
        ok r = true ∧
        ¬ (status r = 403 ∧ ∃ reset, rateLimitReset r = Some reset ∧ reset ≠ "")) ∧
  ((fetchWithRetry net retries).1 = ReturnedUndefined ↔ retries = 0%nat).
Proof.
  unfold fetchWithRetry.
  destruct (retryLoop_bounds net retries retries 0 ltac:(lia))
    as (Hreq & Hs0 & Hs & Hret & Hundef).
  simpl in Hs. split; [lia|]. split; [lia|]. split.
  - intros r Hr. destruct (Hret r Hr) as (j & _ & Hok).
    unfold tryOnce in Hok. destruct (net j) as [m|r']; [done|].
    destruct (Z.eqb_spec (status r') 403) as [H403|H403].
    + unfold presentHeader in Hok.
      destruct (rateLimitReset r') as [reset|] eqn:Hh.
      * case_bool_decide as Hempty; [|done].
        destruct (ok r') eqn:Hokr; simpl in Hok; [|done].
        injection Hok as ->. split; [done|].
        intros (_ & reset' & Hr' & Hne). congruence.
      * destruct (ok r') eqn:Hokr; simpl in Hok; [|done].
        injection Hok as ->. split; [done|].
        intros (_ & reset' & Hr' & _). congruence.
    + destruct (ok r') eqn:Hokr; simpl in Hok; [|done].
      injection Hok as ->. split; [done|]. by intros [? _].
  - split; [intros Hu; specialize (Hundef Hu); lia|]. by intros ->.
Qed.

Lemma fetchWithRetry_bounds_witness :
  ok {| status := 200; ok := true; statusText := "OK";
        rateLimitReset := None; json := 42 |} = true.
Proof.
  eapply (fetchWithRetry_bounds flakyNet 3). reflexivity.
Defined.

(** * [fetchRepositoryStats] *)

Lemma orZero_id n : orZero n = n.
Proof. unfold orZero. by destruct (Z.eqb_spec n 0) as [->|]. Qed.

Lemma fold_left_orZero (f : Repo → Z) (l : list Repo) acc :
  fold_left (λ sum repo, sum + orZero (f repo)) l acc = acc + sumZ (f <$> l).
Proof.
  revert acc. induction l as [|r l IH]; intros acc.
  - unfold sumZ. simpl. lia.
  - cbn [fold_left]. rewrite IH, orZero_id, fmap_cons. unfold sumZ. cbn [foldr]. lia.
Qed.

Lemma sumStats_sums allRepos :
  sumStats allRepos
  = {| totalStars := sumZ (stargazers_count <$> allRepos);
       totalForks := sumZ (forks_count <$> allRepos) |}.
Proof. unfold sumStats. by rewrite !fold_left_orZero. Qed.

Lemma collectPages_full (fetchPage : PageFetch) pages n page fuel acc :
  (∀ p, page ≤ p < page + Z.of_nat n →
        (fetchPage p).1 = inr (pages p) ∧ pages p ≠ []) →
  page + Z.of_nat n ≤ 11 → (n ≤ fuel)%nat →
  (collectPages fetchPage fuel page acc).1
  = (collectPages fetchPage (fuel - n) (page + Z.of_nat n)
       (acc ++ joinPages pages page n)).1.
Proof.
  revert page fuel acc. induction n as [|n IH]; intros page fuel acc Hpages Hcap Hfuel.
  - simpl. by rewrite Z.add_0_r, Nat.sub_0_r, (right_id_L [] (++)).
  - destruct fuel as [|fuel]; [lia|]. cbn [collectPages joinPages].
    destruct (Z.leb_spec page 10); [|lia]. cbv zeta.
    destruct (Hpages page ltac:(lia)) as [-> Hne].
    rewrite bool_decide_eq_false_2 by (by destruct (pages page)).
    cbn [fst]. rewrite (IH (page + 1) fuel); [|intros p Hp; apply Hpages; lia|lia|lia].
    rewrite <- (assoc_L (++)).
    replace (S fuel - S n)%nat with (fuel - n)%nat by lia.
    by replace (page + Z.of_nat (S n)) with (page + 1 + Z.of_nat n) by lia.
Qed.

Lemma collectPages_ext (fetchPage fetchPage' : PageFetch) fuel page acc :
  (∀ p, page ≤ p ≤ 10 → fetchPage p = fetchPage' p) →
  collectPages fetchPage fuel page acc = collectPages fetchPage' fuel page acc.
Proof.
  revert page acc. induction fuel as [|fuel IH]; intros page acc Hext; [done|].
  simpl. destruct (Z.leb_spec page 10); [|done].
  rewrite <- (Hext page) by lia. destruct (fetchPage page).1 as [e|repos]; [done|].
  case_bool_decide; [done|]. rewrite (IH (page + 1)); [done|].
  intros p Hp. apply Hext. lia.
Qed.

Lemma collectPages_length (fetchPage : PageFetch) fuel page acc repos :
  (∀ p l, (fetchPage p).1 = inr l → (length l ≤ 100)%nat) →
  (collectPages fetchPage fuel page acc).1 = inr repos →
  (length repos ≤ length acc + 100 * fuel)%nat.
Proof.
  intros Hsize. revert page acc. induction fuel as [|fuel IH]; intros page acc; simpl.
  - intros [= <-]. lia.
  - destruct (page <=? 10); [|intros [= <-]; lia].
    destruct (fetchPage page).1 as [e|l] eqn:Hl; [done|].
    case_bool_decide; [intros [= <-]; lia|]. cbn [fst].
    intros Hc. apply IH in Hc. rewrite length_app in Hc.
    specialize (Hsize page l Hl). lia.
Qed.

Lemma collectPages_step (fetchPage : PageFetch) fuel page acc :
  collectPages fetchPage (S fuel) page acc
  = if page <=? 10 then
      match (fetchPage page).1 with
      | inl error => (inl error, (fetchPage page).2)
      | inr repos =>
          if bool_decide (length repos = 0%nat) then (inr acc, (fetchPage page).2)
          else ((collectPages fetchPage fuel (page + 1) (acc ++ repos)).1,
                (fetchPage page).2
                ++ (collectPages fetchPage fuel (page + 1) (acc ++ repos)).2)
      end
    else (inr acc, []).
Proof. reflexivity. Qed.

(** Running out of fuel and leaving the loop coincide. *)
Lemma collectPages_fuel (fetchPage : PageFetch) fuel page acc :
  (11 - page ≤ Z.of_nat fuel) →
  collectPages fetchPage (S fuel) page acc = collectPages fetchPage fuel page acc.
Proof.
  revert page acc. induction fuel as [|fuel IH]; intros page acc Hfuel.
  - simpl. destruct (Z.leb_spec page 10); [lia|done].
  - rewrite (collectPages_step _ (S fuel)), (collectPages_step _ fuel).
    destruct (Z.leb_spec page 10); [|done].
    destruct (fetchPage page).1 as [e|repos]; [done|].
    case_bool_decide; [done|]. by rewrite (IH (page + 1)) by lia.
Qed.

(** X12. When pages 1 to [k] of the listing are non-empty and either
    [k] is 10 or page [k + 1] is empty, the totals are the sums of the star
    and fork counts over pages 1 to [k] and nothing else. *)
Theorem fetchRepositoryStats_sums_pages (fetchPage : PageFetch)
    (pages : Z → list Repo) (k : nat) :
  (k ≤ 10)%nat →
  (∀ p, 1 ≤ p ≤ Z.of_nat k → (fetchPage p).1 = inr (pages p) ∧ pages p ≠ []) →
  ((k < 10)%nat → (fetchPage (Z.of_nat k + 1)).1 = inr []) →
  (fetchRepositoryStats fetchPage).1
  = inr {| totalStars := sumZ (stargazers_count <$> joinPages pages 1 k);
           totalForks := sumZ (forks_count <$> joinPages pages 1 k) |}.
Proof.
  intros Hk Hpages Hend. unfold fetchRepositoryStats. cbn [fst].
  rewrite (collectPages_full fetchPage pages k 1 10 []);
    [|intros p Hp; apply Hpages; lia|lia|lia].
  rewrite app_nil_l. destruct (10 - k)%nat as [|fuel] eqn:Hfuel.
  - cbn [collectPages fst]. by rewrite sumStats_sums.
  - cbn [collectPages].
    destruct (Z.leb_spec (1 + Z.of_nat k) 10); [|lia]. cbv zeta.
    replace (1 + Z.of_nat k) with (Z.of_nat k + 1) by lia.
    rewrite Hend by lia. rewrite bool_decide_eq_true_2 by done.
    cbn [fst]. by rewrite sumStats_sums.
Qed.

Lemma fetchRepositoryStats_sums_pages_witness :
  (fetchRepositoryStats (λ p, served (examplePages p))).1
  = inr {| totalStars := 750; totalForks := 250 |}.
Proof.
  rewrite (fetchRepositoryStats_sums_pages (λ p, served (examplePages p))
             examplePages 3); [by vm_compute|lia| |reflexivity].
  intros p Hp. split; [done|].
  assert (p = 1 ∨ p = 2 ∨ p = 3) as [->|[->| ->]] by lia; by vm_compute.
Defined.

(** X13. A page that cannot be fetched, reached before any empty page and
    within the first ten, makes the whole function throw that page's error;
    no partial totals are returned. *)
Theorem fetchRepositoryStats_fails_with_page (fetchPage : PageFetch)
    (pages : Z → list Repo) (k : nat) (e : FetchError) :
  (k < 10)%nat →
  (∀ p, 1 ≤ p ≤ Z.of_nat k → (fetchPage p).1 = inr (pages p) ∧ pages p ≠ []) →
  (fetchPage (Z.of_nat k + 1)).1 = inl e →
  (fetchRepositoryStats fetchPage).1 = inl e.
Proof.
  intros Hk Hpages Herr. unfold fetchRepositoryStats. cbn [fst].
  rewrite (collectPages_full fetchPage pages k 1 10 []);
    [|intros p Hp; apply Hpages; lia|lia|lia].
  destruct (10 - k)%nat as [|fuel] eqn:Hfuel; [lia|]. cbn [collectPages].
  destruct (Z.leb_spec (1 + Z.of_nat k) 10); [|lia]. cbv zeta.
  replace (1 + Z.of_nat k) with (Z.of_nat k + 1) by lia. by rewrite Herr.
Qed.

Lemma fetchRepositoryStats_fails_with_page_witness :
  (fetchRepositoryStats
     (λ p, if p =? 3 then (inl (HttpError 500 "Internal Server Error"), [Request])
           else served (examplePages p))).1
  = inl (HttpError 500 "Internal Server Error").
Proof.
  apply (fetchRepositoryStats_fails_with_page _ examplePages 2); [lia| |reflexivity].
  intros p Hp. assert (p = 1 ∨ p = 2) as [->| ->] by lia; by vm_compute.
Defined.

(** X14. Only the first ten pages count: two listings that agree on pages
    1 to 10 give the same result, and with at most 100 repositories to a page
    at most 1000 repositories are collected. *)
Theorem fetchRepositoryStats_first_ten_pages (fetchPage fetchPage' : PageFetch) :
  (∀ p, 1 ≤ p ≤ 10 → fetchPage p = fetchPage' p) →
  fetchRepositoryStats fetchPage = fetchRepositoryStats fetchPage' ∧
  ((∀ p l, (fetchPage p).1 = inr l → (length l ≤ 100)%nat) →
   ∀ repos, (collectPages fetchPage 10 1 []).1 = inr repos →
            (length repos ≤ 1000)%nat).
Proof.
  intros Hext. split.
  - unfold fetchRepositoryStats. by rewrite (collectPages_ext fetchPage fetchPage').
  - intros Hsize repos Hc.
    apply (collectPages_length _ _ _ _ _ Hsize) in Hc. simpl in Hc. lia.
Qed.

Lemma fetchRepositoryStats_first_ten_pages_witness :
  fetchRepositoryStats (λ p, served (examplePages p))
  = fetchRepositoryStats
      (λ p, if 10 <? p then (inl (FetchRejected "unreachable"), [Request])
            else served (examplePages p)).
Proof.
  apply (fetchRepositoryStats_first_ten_pages (λ p, served (examplePages p))).
  intros p Hp. simpl. destruct (Z.ltb_spec 10 p); [lia|done].
Defined.

(** ** Requests and waiting *)

Lemma requests_app e1 e2 : requests (e1 ++ e2) = (requests e1 + requests e2)%nat.
Proof.
  induction e1 as [|[|ms] e1 IH]; simpl; [done|by rewrite IH|done].
Qed.

Lemma slept_app e1 e2 : slept (e1 ++ e2) = slept e1 + slept e2.
Proof.
  induction e1 as [|[|ms] e1 IH]; simpl; [done|done|]. rewrite IH. lia.
Qed.

Lemma collectPages_effects (fetchPage : PageFetch) fuel page acc r s :
  (∀ p, (requests (fetchPage p).2 ≤ r)%nat ∧ 0 ≤ slept (fetchPage p).2 ≤ s) →
  (requests (collectPages fetchPage fuel page acc).2 ≤ fuel * r)%nat ∧
  0 ≤ slept (collectPages fetchPage fuel page acc).2 ≤ Z.of_nat fuel * s.
Proof.
  intros Hpage. revert page acc. induction fuel as [|fuel IH]; intros page acc.
  - simpl. lia.
  - cbn [collectPages]. destruct (Hpage page) as [Hr Hs].
    assert (0 ≤ s) by lia.
    destruct (page <=? 10); [|simpl; nia]. cbv zeta.
    destruct (fetchPage page).1 as [e|repos]; [simpl; nia|].
    case_bool_decide; [simpl; nia|]. cbn [snd].
    rewrite requests_app, slept_app.
    destruct (IH (page + 1) (acc ++ repos)) as [Hr' Hs']. nia.
Qed.

(** X15. Fetched through [fetchWithRetry], the repository listing costs at
    most 30 requests and at most 30 seconds of waiting, whatever the network
    does. *)
Theorem fetchRepositoryStats_effort (net : Z → nat → Attempt (list Repo)) :
  (requests (fetchRepositoryStats (fetchReposPage net)).2 ≤ 30)%nat ∧
  0 ≤ slept (fetchRepositoryStats (fetchReposPage net)).2 ≤ 30000.
Proof.
  unfold fetchRepositoryStats. cbn [snd].
  destruct (collectPages_effects (fetchReposPage net) 10 1 [] 3 3000) as [Hr Hs];
    [|lia].
  intros p. unfold fetchReposPage. cbn [snd].
  unfold fetchWithRetry.
  pose proof (retryLoop_bounds (net p) 3 3 0 ltac:(lia)) as (Hreq & Hs0 & Hsl & _).
  change (2 ^ Z.of_nat 0 * 1000) with 1000 in Hsl.
  change (1000 * 2 ^ Z.of_nat (Nat.max 0 (3 - 1))) with 4000 in Hsl. lia.
Qed.

(** * [validateEnvironment] *)

(** ** [trim] *)

Lemma trimStart_split s :
  ∃ ws, s = ws ++ trimStart s ∧ Forall (λ u, isWhiteSpace u = true) ws.
Proof.
  induction s as [|u s (ws & Hs & Hws)]; [by exists []|]. simpl.
  destruct (isWhiteSpace u) eqn:Hu.
  - exists (u :: ws). split; [simpl; by f_equal|by constructor].
  - by exists [].
Qed.

Lemma trimStart_head s u s' : trimStart s = u :: s' → isWhiteSpace u = false.
Proof.
  induction s as [|v s IH]; [done|]. simpl.
  destruct (isWhiteSpace v) eqn:Hv; [done|]. by intros [= <- _].
Qed.

Lemma trimStart_fixed s :
  (∀ u s', s = u :: s' → isWhiteSpace u = false) → trimStart s = s.
Proof. destruct s as [|u s]; [done|]. intros H. simpl. by rewrite (H u s). Qed.

Lemma trimStart_idem s : trimStart (trimStart s) = trimStart s.
Proof. apply trimStart_fixed. intros u s'. apply trimStart_head. Qed.

(** The last code unit of a trimmed string is not white space. *)
Lemma trimEnd_last s t u : trimEnd s = t ++ [u] → isWhiteSpace u = false.
Proof.
  unfold trimEnd. intros H. apply (f_equal reverse) in H.
  rewrite reverse_involutive, reverse_snoc in H. by apply trimStart_head in H.
Qed.

Lemma trimEnd_fixed s :
  (∀ t u, s = t ++ [u] → isWhiteSpace u = false) → trimEnd s = s.
Proof.
  intros H. unfold trimEnd. rewrite trimStart_fixed; [apply reverse_involutive|].
  intros u s' Hr. apply (H (reverse s')).
  apply (f_equal reverse) in Hr. by rewrite reverse_involutive, reverse_cons in Hr.
Qed.

(** Trimming at the end keeps the first code unit of what is left. *)
Lemma trimEnd_head s u s' :
  trimEnd s = u :: s' → ∃ s'', s = u :: s''.
Proof.
  unfold trimEnd. intros H.
  destruct (trimStart_split (reverse s)) as (ws & Hs & _).
  apply (f_equal reverse) in Hs. rewrite reverse_involutive, reverse_app, H in Hs.
  simpl in Hs. by eexists.
Qed.

Lemma trim_head s u s' : trim s = u :: s' → isWhiteSpace u = false.
Proof.
  unfold trim. intros H. apply trimEnd_head in H as [s'' H].
  by apply trimStart_head in H.
Qed.

Lemma trim_last s t u : trim s = t ++ [u] → isWhiteSpace u = false.
Proof. apply trimEnd_last. Qed.

Lemma trim_fixed s :
  (∀ u s', s = u :: s' → isWhiteSpace u = false) →
  (∀ t u, s = t ++ [u] → isWhiteSpace u = false) →
  trim s = s.
Proof. intros Hh Hl. unfold trim. rewrite trimStart_fixed by done. by apply trimEnd_fixed. Qed.

Lemma trim_idem s : trim (trim s) = trim s.
Proof.
  apply trim_fixed.
  - intros u s'. apply trim_head.
  - intros t u. apply trim_last.
Qed.

Lemma usernameChar_not_space u : isUsernameChar u = true → isWhiteSpace u = false.
Proof.
  unfold isUsernameChar, isWhiteSpace. intros H.
  repeat (apply orb_true_iff in H as [H|H]);
    rewrite ?andb_true_iff, ?N.leb_le, ?N.eqb_eq in H;
    repeat (apply orb_false_iff; split);
    rewrite ?andb_false_iff, ?N.leb_gt, ?N.eqb_neq; lia.
Qed.

Lemma usernamePattern_spec s :
  usernamePattern s = true ↔ s ≠ [] ∧ Forall (λ u, isUsernameChar u = true) s.
Proof.
  unfold usernamePattern.
  rewrite andb_true_iff, negb_true_iff, bool_decide_eq_false, forallb_forall.
  rewrite Forall_forall. by setoid_rewrite list_elem_of_In.
Qed.

Lemma unset_spec env key :
  ¬ unset env key ↔ ∃ v, env !! key = Some v ∧ v ≠ [].
Proof.
  unfold unset. destruct (env !! key) as [[|u v]|]; split.
  - intros H. exfalso. apply H. by right.
  - intros (v & [= <-] & Hv) _. done.
  - intros _. by eexists.
  - intros _ [H|H]; done.
  - intros H. exfalso. apply H. by left.
  - by intros (v & [=] & _).
Qed.

Lemma required_set env :
  filter (unset env) required = [] ↔
  ∃ u0 t0, env !! "GITHUB_USERNAME" = Some u0 ∧ env !! "GITHUB_TOKEN" = Some t0 ∧
           u0 ≠ [] ∧ t0 ≠ [].
Proof.
  unfold required. rewrite !filter_cons, filter_nil.
  destruct (decide (unset env "GITHUB_USERNAME")) as [HU|HU],
           (decide (unset env "GITHUB_TOKEN")) as [HT|HT]; split; try done.
  - intros (u0 & t0 & Hu & Ht & Hu0 & Ht0). exfalso.
    revert HU. apply unset_spec. eauto.
  - intros (u0 & t0 & Hu & Ht & Hu0 & Ht0). exfalso.
    revert HU. apply unset_spec. eauto.
  - intros (u0 & t0 & Hu & Ht & Hu0 & Ht0). exfalso.
    revert HT. apply unset_spec. eauto.
  - intros _. apply unset_spec in HU as (u0 & Hu & Hu0).
    apply unset_spec in HT as (t0 & Ht & Ht0). by exists u0, t0.
Qed.

Lemma validateEnvironment_inr (env : gmap string CodeUnits)
    (username token : CodeUnits) :
  validateEnvironment env = inr (username, token) ↔
  ∃ u0 t0,
    env !! "GITHUB_USERNAME" = Some u0 ∧ env !! "GITHUB_TOKEN" = Some t0 ∧
    u0 ≠ [] ∧ t0 ≠ [] ∧
    username = trim u0 ∧ token = trim t0 ∧
    username ≠ [] ∧ Forall (λ u, isUsernameChar u = true) username ∧
    (20 ≤ length token)%nat.
Proof.
  unfold validateEnvironment. cbv zeta. split.
  - case_bool_decide as Hmiss; [done|].
    assert (filter (unset env) required = []) as Hset
      by (destruct (filter (unset env) required); [done|simpl in Hmiss; lia]).
    apply required_set in Hset as (u0 & t0 & Hu & Ht & Hu0 & Ht0).
    rewrite Hu, Ht. simpl.
    destruct (usernamePattern (trim u0)) eqn:Hpat; [|done]. simpl.
    case_bool_decide as Hlen; [done|]. intros [= <- <-].
    apply usernamePattern_spec in Hpat as [Hne Hall].
    exists u0, t0. repeat split; try done. lia.
  - intros (u0 & t0 & Hu & Ht & Hu0 & Ht0 & -> & -> & Hne & Hall & Hlen).
    rewrite (proj2 (required_set env)) by (by exists u0, t0).
    rewrite bool_decide_eq_false_2 by (simpl; lia).
    rewrite Hu, Ht. simpl.
    rewrite (proj2 (usernamePattern_spec _)) by done. simpl.
    by rewrite bool_decide_eq_false_2 by lia.
Qed.

(** X16. The environment is accepted exactly when both variables are set
    and non-empty, the trimmed user name is a non-empty run of ASCII
    letters, digits and hyphens, and the trimmed token has at least 20 code
    units; what is returned are the two trimmed values. *)
Theorem validateEnvironment_accepts (env : gmap string CodeUnits)
    (username token : CodeUnits) :
  validateEnvironment env = inr (username, token) ↔
  ∃ u0 t0,
    env !! "GITHUB_USERNAME" = Some u0 ∧ env !! "GITHUB_TOKEN" = Some t0 ∧
    u0 ≠ [] ∧ t0 ≠ [] ∧
    username = trim u0 ∧ token = trim t0 ∧
    username ≠ [] ∧ Forall (λ u, isUsernameChar u = true) username ∧
    (20 ≤ length token)%nat.
Proof. apply validateEnvironment_inr. Qed.

Lemma validateEnvironment_accepts_witness :
  validateEnvironment exampleEnv
  = inr (unitsOf "octo-cat7", unitsOf "ghp_0123456789abcdefghij").
Proof.
  apply (validateEnvironment_accepts exampleEnv).
  exists (unitsOf " octo-cat7 "),
         (9%N :: unitsOf "ghp_0123456789abcdefghij" ++ [10%N]).
  repeat split; try done; try by vm_compute.
  - vm_compute. repeat constructor.
  - vm_compute. lia.
Defined.

Lemma trimStart_blank s : Forall (λ u, isWhiteSpace u = true) s → trimStart s = [].
Proof. induction 1 as [|u s Hu _ IH]; [done|]. simpl. by rewrite Hu. Qed.

Lemma trim_blank s : Forall (λ u, isWhiteSpace u = true) s → trim s = [].
Proof. intros H. unfold trim. by rewrite trimStart_blank. Qed.

(** X17. The values that are accepted are clean and stable: the user name
    holds no white space at all, the token neither starts nor ends with
    white space, and an environment holding just the two returned values is
    accepted with the same result. *)
Theorem validateEnvironment_result_stable (env : gmap string CodeUnits)
    (username token : CodeUnits) :
  validateEnvironment env = inr (username, token) →
  Forall (λ u, isWhiteSpace u = false) username ∧
  (∀ u t, token = u :: t → isWhiteSpace u = false) ∧
  (∀ t u, token = t ++ [u] → isWhiteSpace u = false) ∧
  validateEnvironment {[ "GITHUB_USERNAME" := username; "GITHUB_TOKEN" := token ]}
  = inr (username, token).
Proof.
  intros Hok.
  apply validateEnvironment_inr in Hok
    as (u0 & t0 & Hu & Ht & Hu0 & Ht0 & -> & -> & Hne & Hall & Hlen).
  split; [|split; [|split]].
  - eapply Forall_impl; [exact Hall|]. apply usernameChar_not_space.
  - intros u t. apply trim_head.
  - intros t u. apply trim_last.
  - apply validateEnvironment_inr. exists (trim u0), (trim t0).
    rewrite !trim_idem. repeat split; try done; try (by simplify_map_eq).
    intros E. rewrite E in Hlen. simpl in Hlen. lia.
Qed.

Lemma validateEnvironment_result_stable_witness :
  validateEnvironment
    {[ "GITHUB_USERNAME" := unitsOf "octo-cat7";
       "GITHUB_TOKEN" := unitsOf "ghp_0123456789abcdefghij" ]}
  = inr (unitsOf "octo-cat7", unitsOf "ghp_0123456789abcdefghij").
Proof.
  apply (validateEnvironment_result_stable exampleEnv). reflexivity.
Defined.

(** X18. A variable that is set but blank is not reported as missing: a
    user name of white space only is rejected as an invalid (empty) name,
    whatever the token, and with a valid user name a token of white space
    only is rejected as too short. *)
Theorem validateEnvironment_blank_values (env : gmap string CodeUnits)
    (u0 t0 : CodeUnits) :
  env !! "GITHUB_USERNAME" = Some u0 → env !! "GITHUB_TOKEN" = Some t0 →
  u0 ≠ [] → t0 ≠ [] →
  (Forall (λ u, isWhiteSpace u = true) u0 →
   validateEnvironment env = inl (InvalidUsername [])) ∧
  (usernamePattern (trim u0) = true →
   Forall (λ u, isWhiteSpace u = true) t0 →
   validateEnvironment env = inl TokenTooShort).
Proof.
  intros Hu Ht Hu0 Ht0. unfold validateEnvironment. cbv zeta.
  rewrite (proj2 (required_set env)) by (by exists u0, t0).
  rewrite bool_decide_eq_false_2 by (simpl; lia).
  rewrite Hu, Ht.
  change (default [] (Some u0)) with u0. change (default [] (Some t0)) with t0.
  split.
  - intros Hblank. by rewrite trim_blank.
  - intros Hpat Hblank. rewrite Hpat, (trim_blank t0) by done.
    cbn [negb]. by rewrite bool_decide_eq_true_2 by (simpl; lia).
Qed.

Lemma validateEnvironment_blank_values_witness :
  validateEnvironment
    {[ "GITHUB_USERNAME" := unitsOf "  "; "GITHUB_TOKEN" := unitsOf "x" ]}
  = inl (InvalidUsername []).
Proof.
  apply (validateEnvironment_blank_values _ (unitsOf "  ") (unitsOf "x"));
    try done.
  repeat constructor.
Defined.

(** * [formatNumber] *)

Lemma toFixed1Of_nearest tieUp num unit :
  0 < unit →
  Z.abs (unit * toFixed1Of tieUp num unit - 10 * num) * 2 ≤ unit.
Proof.
  intros Hu. unfold toFixed1Of.
  pose proof (Z.div_mod (10 * num) unit ltac:(lia)) as Hdm.
  pose proof (Z.mod_pos_bound (10 * num) unit Hu) as Hr.
  destruct (Z.ltb_spec (2 * ((10 * num) mod unit)) unit);
    [|destruct (Z.ltb_spec unit (2 * ((10 * num) mod unit)));
      [|destruct (tieUp num unit)]]; nia.
Qed.

Lemma toFixed1Of_mono tieUp num num' unit :
  0 < unit → num < num' →
  toFixed1Of tieUp num unit ≤ toFixed1Of tieUp num' unit.
Proof.
  intros Hu Hlt.
  pose proof (toFixed1Of_nearest tieUp num unit Hu).
  pose proof (toFixed1Of_nearest tieUp num' unit Hu).
  nia.
Qed.

(** X19. What is displayed is accurate to half a tenth of the unit: below
    1000 the number itself; from 1000 up to a million a number of thousands
    with one decimal, within 50 of the number, followed by K; from a million
    on a number of millions with one decimal, within 50000 of the number,
    followed by M.  Within each of the two ranges a larger number is never
    displayed as less. *)
Theorem formatNumber_accuracy (tieUp : Z → Z → bool) (num : Z) :
  (num < 1000 → formatNumber tieUp num = pretty num) ∧
  (1000 ≤ num < 1000000 →
   ∃ t, formatNumber tieUp num = showTenths t +:+ "K" ∧
        10 ≤ t ≤ 10000 ∧ Z.abs (100 * t - num) ≤ 50 ∧
        ∀ num', num ≤ num' < 1000000 →
          ∃ t', formatNumber tieUp num' = showTenths t' +:+ "K" ∧ t ≤ t') ∧
  (1000000 ≤ num →
   ∃ t, formatNumber tieUp num = showTenths t +:+ "M" ∧
        10 ≤ t ∧ Z.abs (100000 * t - num) ≤ 50000 ∧
        ∀ num', num ≤ num' →
          ∃ t', formatNumber tieUp num' = showTenths t' +:+ "M" ∧ t ≤ t').
Proof.
  unfold formatNumber. split; [|split].
  - intros Hn. destruct (Z.leb_spec 1000000 num); [lia|].
    destruct (Z.leb_spec 1000 num); [lia|done].
  - intros Hn. destruct (Z.leb_spec 1000000 num); [lia|].
    destruct (Z.leb_spec 1000 num); [|lia].
    pose proof (toFixed1Of_nearest tieUp num 1000 ltac:(lia)).
    eexists. split; [done|]. split; [lia|]. split; [lia|].
    intros num' Hn'. destruct (Z.leb_spec 1000000 num'); [lia|].
    destruct (Z.leb_spec 1000 num'); [|lia].
    eexists. split; [done|].
    destruct (decide (num = num')) as [->|]; [done|].
    apply toFixed1Of_mono; lia.
  - intros Hn. destruct (Z.leb_spec 1000000 num); [|lia].
    pose proof (toFixed1Of_nearest tieUp num 1000000 ltac:(lia)).
    eexists. split; [done|]. split; [lia|]. split; [lia|].
    intros num' Hn'. destruct (Z.leb_spec 1000000 num'); [|lia].
    eexists. split; [done|].
    destruct (decide (num = num')) as [->|]; [done|].
    apply toFixed1Of_mono; lia.
Qed.

Lemma formatNumber_accuracy_witness :
  ∃ t, formatNumber (λ _ _, true) 1234 = showTenths t +:+ "K" ∧
       10 ≤ t ≤ 10000 ∧ Z.abs (100 * t - 1234) ≤ 50.
Proof.
  destruct (formatNumber_accuracy (λ _ _, true) 1234) as (_ & H & _).
  destruct (H ltac:(lia)) as (t & Ht & Hr & Ha & _). by exists t.
Defined.

(** X20. There is no carry into the next unit: every number from 999951
    to 999999 is displayed as 1000.0K. *)
Theorem formatNumber_no_carry (tieUp : Z → Z → bool) (num : Z) :
  999950 < num < 1000000 → formatNumber tieUp num = "1000.0K".
Proof.
  intros Hn. unfold formatNumber.
  destruct (Z.leb_spec 1000000 num); [lia|].
  destruct (Z.leb_spec 1000 num); [|lia].
  assert (toFixed1Of tieUp num 1000 = 10000) as ->; [|done].
  pose proof (toFixed1Of_nearest tieUp num 1000 ltac:(lia)). lia.
Qed.

Lemma formatNumber_no_carry_witness :
  formatNumber (λ _ _, false) 999999 = "1000.0K".
Proof. apply formatNumber_no_carry. lia. Defined.

(** * [fetchContributionData] *)

(** X21. A response is turned into contribution totals exactly when it
    carries no [errors] and its [data.user] is there.  A non-empty [errors]
    list is thrown as a GraphQL error with its first message even when the
    data are complete, and an empty one fails on reading that message. *)
Theorem fetchContributionData_outcomes (c : Clock) (response : GraphQLResponse) :
  ((∃ stats, fetchContributionData c response = Ok stats) ↔
   errors response = None ∧ ∃ contributions, data response = Some (Some contributions)) ∧
  (∀ message rest, errors response = Some (message :: rest) →
     fetchContributionData c response = Throw (GraphQLError message)) ∧
  (errors response = Some [] →
   fetchContributionData c response = Throw (TypeError "message")) ∧
  (errors response = None → data response = None ∨ data response = Some None →
   fetchContributionData c response = Throw UserNotFound).
Proof.
  unfold fetchContributionData. split; [|split; [|split]].
  - split.
    + intros [stats H].
      destruct (errors response) as [[|m ms]|]; [done|done|]. split; [done|].
      destruct (data response) as [[cc|]|]; [by eexists|done|done].
    + intros [He [cc Hd]]. rewrite He, Hd. by eexists.
  - by intros m rest ->.
  - by intros ->.
  - by intros -> [-> | ->].
Qed.

Lemma fetchContributionData_outcomes_witness :
  fetchContributionData exampleClock
    {| errors := Some ["Something went wrong"];
       data := Some (Some exampleContributions) |}
  = Throw (GraphQLError "Something went wrong").
Proof.
  eapply (fetchContributionData_outcomes exampleClock
            {| errors := Some ["Something went wrong"];
               data := Some (Some exampleContributions) |}).
  reflexivity.
Defined.

(** * Further bounds *)

Lemma old_entries_no_gap c l :
  Forall (λ d, 2 ≤ daysDiff c d) l → ¬ gapBeforeActive c l.
Proof.
  intros Hold (l2 & z & l3 & q & l4 & -> & _ & Dz & _).
  apply Forall_app in Hold as [_ Hold]. apply Forall_cons in Hold as [Hz _]. lia.
Qed.

(** Past the grace window the scan adds at most the entries of positive
    count that come first. *)
Lemma scanBack_old_entries c l cur N :
  Forall (λ d, 2 ≤ daysDiff c d) l →
  (∀ run rest, l = run ++ rest → Forall active run → Z.of_nat (length run) ≤ N) →
  scanBack c l cur ≤ cur + N.
Proof.
  intros Hold Hrun. apply scanBack_prefix; [|by apply old_entries_no_gap].
  intros run rest Hl Hact. specialize (Hrun run rest Hl Hact). lia.
Qed.

Lemma scanBack_daily c l N :
  (∀ i d, l !! i = Some d → Z.of_nat i ≤ daysDiff c d) →
  (∀ run, activeRun l run → Z.of_nat (length run) ≤ N) →
  scanBack c l 0 ≤ N + 1.
Proof.
  intros Hage Hrun.
  assert (0 ≤ N) as HN.
  { apply (Hrun []). split; [by exists [], l|constructor]. }
  destruct l as [|d0 [|d1 rest]].
  - simpl. lia.
  - simpl. repeat (case_match; try lia).
  - assert (Forall (λ d, 2 ≤ daysDiff c d) rest) as Hold.
    { apply Forall_lookup. intros i d Hi. specialize (Hage (S (S i)) d Hi). lia. }
    pose proof (Hage 1%nat d1 eq_refl) as H1. simpl in H1.
    assert (∀ (pre : list ContributionDay) cur,
              Forall active pre → d0 :: d1 :: rest = reverse pre ++ rest ∨
                                  d1 :: rest = reverse pre ++ rest ∨ pre = [] →
              cur = Z.of_nat (length pre) →
              scanBack c rest cur ≤ N) as Hjoin.
    { intros pre cur Hpre Hsplit ->.
      apply scanBack_prefix; [|by apply old_entries_no_gap].
      intros run rest' -> Hact.
      rewrite <- length_reverse, <- Nat2Z.inj_add, <- length_app.
      apply Hrun. split; [|apply Forall_app; split; [by apply Forall_reverse|done]].
      destruct Hsplit as [E|[E| ->]].
      - exists [], rest'. rewrite E. by rewrite <- (assoc_L (++)).
      - exists [d0], rest'. simpl. rewrite E. by rewrite <- (assoc_L (++)).
      - exists [d0; d1], rest'. done. }
    assert (scanBack c rest 1 ≤ N + 1) as Hskip.
    { pose proof (scanBack_old_entries c rest 1 N Hold) as H. rewrite Z.add_comm.
      apply H. intros run rest' -> Hact. apply Hrun.
      split; [by exists [d0; d1], rest'|done]. }
    simpl scanBack.
    destruct (Z.ltb_spec 0 (contributionCount d0)) as [A0|A0];
      destruct (Z.ltb_spec 0 (contributionCount d1)) as [A1|A1];
      repeat (match goal with
              | |- context [?a <=? ?b] => destruct (Z.leb_spec a b)
              end); try lia.
    + etransitivity; [apply (Hjoin [d1; d0] (0 + 1 + 1))|lia];
        [by repeat constructor|by left|done].
    + apply Hskip.
    + etransitivity; [apply (Hjoin [d1] (0 + 1))|lia];
        [by repeat constructor|by right; left|done].
    + etransitivity; [apply (Hjoin [] 0)|lia]; [constructor|by right; right|done].
Qed.

(** X22. On a calendar with at most one entry per day and none dated
    ahead, so that the i-th most recent entry (from 0) is at least i days
    old, the current streak exceeds the longest streak by at most one. *)
Theorem current_exceeds_max_by_one (c : Clock) (days : list ContributionDay) :
  (∀ i d, reverse (sortedDays days) !! i = Some d → Z.of_nat i ≤ daysDiff c d) →
  current (calculateStreak c days) ≤ max (calculateStreak c days) + 1.
Proof.
  intros Hage. rewrite calculateStreak_current, calculateStreak_max.
  apply scanBack_daily; [done|].
  intros run Hrun. rewrite <- length_reverse.
  apply maxLoop_upper. by apply activeRun_reverse.
Qed.

Lemma current_exceeds_max_by_one_witness :
  current (calculateStreak exampleClock bridgedDays)
  ≤ max (calculateStreak exampleClock bridgedDays) + 1.
Proof.
  apply (current_exceeds_max_by_one exampleClock bridgedDays).
  intros [|[|[|i]]] d Hd; vm_compute in Hd;
    [injection Hd as <-; by vm_compute..|discriminate].
Defined.

(** X23. The summary is built exactly when the profile, repository and
    contribution sub-results are neither [undefined] nor [null]; the
    language sub-result may be anything.  Otherwise the error names the
    first property read from the first sub-result that is missing. *)
Theorem summary_needs_three_subresults (c : Clock)
    (userName userStats repoStats contributionStats languageStats : Summary.value) :
  ((∃ s, Summary.buildSummary c userName userStats repoStats contributionStats
           languageStats = Ok s) ↔
   Summary.isNullish userStats = false ∧ Summary.isNullish repoStats = false ∧
   Summary.isNullish contributionStats = false) ∧
  (Summary.isNullish userStats = true →
   Summary.buildSummary c userName userStats repoStats contributionStats
     languageStats = Throw (TypeError "followers")) ∧
  (Summary.isNullish userStats = false → Summary.isNullish repoStats = true →
   Summary.buildSummary c userName userStats repoStats contributionStats
     languageStats = Throw (TypeError "totalStars")).
Proof.
  unfold Summary.buildSummary.
  destruct (Summary.isNullish userStats) eqn:Hus.
  { rewrite (getProp_nullish userStats "followers" Hus). simpl.
    split; [split; [by intros [s [=]]|by intros ([=] & _)]|].
    split; [done|by intros [=]]. }
  destruct (getProp_present userStats "followers" Hus) as [? ->].
  destruct (getProp_present userStats "following" Hus) as [? ->].
  destruct (getProp_present userStats "public_repos" Hus) as [? ->].
  simpl. destruct (Summary.isNullish repoStats) eqn:Hrs.
  { rewrite (getProp_nullish repoStats "totalStars" Hrs). simpl.
    split; [split; [by intros [s [=]]|by intros (_ & [=] & _)]|].
    split; [by intros [=]|done]. }
  destruct (getProp_present repoStats "totalStars" Hrs) as [? ->].
  destruct (getProp_present repoStats "totalForks" Hrs) as [? ->].
  simpl. destruct (Summary.isNullish contributionStats) eqn:Hcs.
  { rewrite (getProp_nullish contributionStats "totalIssues" Hcs). simpl.
    split; [split; [by intros [s [=]]|by intros (_ & _ & [=])]|].
    split; [by intros [=]|by intros _ [=]]. }
  destruct (getProp_present contributionStats "totalIssues" Hcs) as [? ->].
  destruct (getProp_present contributionStats "totalPRs" Hcs) as [? ->].
  destruct (getProp_present contributionStats "totalCommits" Hcs) as [? ->].
  destruct (getProp_present contributionStats "streak" Hcs) as [? ->].
  destruct (getProp_present contributionStats "contributionDays" Hcs) as [? ->].
  simpl. split; [split; [done|intros _; by eexists]|].
  split; [by intros [=]|by intros _ [=]].
Qed.

Lemma summary_needs_three_subresults_witness :
  Summary.buildSummary exampleClock (Summary.VStr "octocat") Summary.VNull
    exampleRepoStats (Summary.VObj []) (Summary.VArr [])
  = Throw (TypeError "followers").
Proof.
  apply (summary_needs_three_subresults exampleClock (Summary.VStr "octocat")
           Summary.VNull exampleRepoStats (Summary.VObj []) (Summary.VArr [])).
  reflexivity.
Defined.
